(** * src/heap/spaces.cc: linear-area limit computation, local allocation
      buffers and the space iterator

    A shallow embedding of the functions defined in [src/heap/spaces.cc]
    and the properties the specification states about them.

    Conventions.
    - [Address] ([uintptr_t]) and [size_t] are 64-bit unsigned integers and
      [int] is a 32-bit signed integer; they are carried as [Z] and every
      arithmetic operation and conversion writes its wrap-around out.
    - Methods run in a state-and-abort monad over the object state they can
      reach.  A [DCHECK] aborts (result [None]) in a [DEBUG] build when its
      condition is false and is absent from a release build.
    - A nullable [Space*] is an [option]. *)

From Stdlib Require Import ZArith Lia Bool List Sorted.
From stdpp Require Import base option list gmap.
From Equations Require Import Equations.

Local Open Scope Z_scope.

(** ** Build configuration *)

(** Constants and switches that are fixed when V8 is built.  Their
    declarations live in headers ([src/common/globals.h],
    [src/base/logging.h]), so they are taken as parameters. *)
Class Build := {
  (** whether [DCHECK]s are compiled in *)
  DEBUG : bool;
  (** log2 of the object alignment *)
  kObjectAlignmentBits : nat;
  (** first and last id of the [AllocationSpace] enum the iterator visits *)
  FIRST_MUTABLE_SPACE : Z;
  LAST_MUTABLE_SPACE : Z
}.

(** ** Machine integers *)

Definition kNullAddress : Z := 0.

(** Conversion to [size_t] / [Address]: reduction modulo [2^64]. *)
Definition to_size_t (x : Z) : Z := x mod 2 ^ 64.

(** [static_cast<int>]: reduction to the signed 32-bit range (the value
    modulo [2^32] that lies in [[-2^31, 2^31)]). *)
Definition to_int (x : Z) : Z := (x + 2 ^ 31) mod 2 ^ 32 - 2 ^ 31.

Definition kMaxInt : Z := 2 ^ 31 - 1.

(** [x] is a value of type [size_t] (or [Address]). *)
Definition is_size_t (x : Z) : Prop := 0 <= x < 2 ^ 64.

(** ** The state-and-abort monad *)

Definition M (S A : Type) : Type := S -> option (A * S).

Definition ret {S A} (a : A) : M S A := fun s => Some (a, s).

Definition bind {S A B} (m : M S A) (f : A -> M S B) : M S B := fun s =>
  match m s with
  | Some (a, s') => f a s'
  | None => None
  end.

Declare Scope M_scope.
Delimit Scope M_scope with M.
Notation "'let*' x := m 'in' k" := (bind m (fun x => k))
  (at level 10, x name, m at level 100, k at level 200) : M_scope.
Notation "m >> k" := (bind m (fun _ => k))
  (at level 100, k at level 200, right associativity) : M_scope.
Local Open Scope M_scope.

(** Read a component of the state. *)
Definition gets {S A} (f : S -> A) : M S A := fun s => Some (f s, s).

(** Replace the state. *)
Definition modify {S} (f : S -> S) : M S unit := fun s => Some (tt, f s).

(** [DCHECK(c)]: fatal in a debug build when [c] is false, nothing in a
    release build. *)
Definition DCHECK `{Build} {S} (c : bool) : M S unit := fun s =>
  if DEBUG && negb c then None else Some (tt, s).

(** ** LinearAllocationArea *)

Record LinearAllocationArea := mkArea {
  start_ : Z;
  top_ : Z;
  limit_ : Z
}.

(** Modelled from the spec: the two-argument constructor
    [LinearAllocationArea(top, limit)] and [Reset(top, limit)] are declared
    in a header; both start the area at [top].
    With [kNullAddress] twice they give the null area
    [start = top = limit = 0] of the data model. *)
Definition LinearAllocationArea_new (top limit : Z) : LinearAllocationArea :=
  {| start_ := top; top_ := top; limit_ := limit |}.

Definition Reset (top limit : Z) (_ : LinearAllocationArea) : LinearAllocationArea :=
  {| start_ := top; top_ := top; limit_ := limit |}.

Definition null_area : LinearAllocationArea :=
  LinearAllocationArea_new kNullAddress kNullAddress.

(** ** SpaceWithLinearArea *)

Module SpaceWithLinearArea.

(** What [ComputeLimit] can reach through [heap()], [allocator_] and
    [v8_flags].  Modelled from the spec: the accessors below are declared in
    the headers this file includes; section 6 of the specification lists
    them as queries that return the current value. *)
Record SpaceState := mkSpaceState {
  is_in_gc : bool;
  inline_allocation_enabled : bool;
  allocation_observer_active : bool;
  supports_allocation_observer : bool;
  allocation_info : LinearAllocationArea;
  next_bytes : Z;
  stress_marking : bool
}.

Definition IsInGC : M SpaceState bool := gets is_in_gc.
Definition IsInlineAllocationEnabled : M SpaceState bool := gets inline_allocation_enabled.
Definition IsAllocationObserverActive : M SpaceState bool := gets allocation_observer_active.
Definition SupportsAllocationObserver : M SpaceState bool := gets supports_allocation_observer.
Definition allocator_allocation_info : M SpaceState LinearAllocationArea := gets allocation_info.
Definition NextBytes : M SpaceState Z := gets next_bytes.
Definition v8_flags_stress_marking : M SpaceState bool := gets stress_marking.

Definition kObjectAlignment `{Build} : Z := 2 ^ Z.of_nat kObjectAlignmentBits.

(** Modelled from the spec: [RoundSizeDownToObjectAlignment(int)] is declared
    in a header; the specification calls it [round_down_to_object_alignment]:
    the largest multiple of the object alignment that is not above [size]
    (for a power of two, [size & ~(alignment - 1)], see
    [RoundSizeDownToObjectAlignment_mask]). *)
Definition RoundSizeDownToObjectAlignment `{Build} (size : Z) : Z :=
  size - size mod kObjectAlignment.

(** [&&] of the source: the right operand is evaluated only when the left
    one is true. *)
Definition and_then {S} (a b : M S bool) : M S bool :=
  let* x := a in if x then b else ret false.

Definition ComputeLimit `{Build} (start end_ min_size : Z) : M SpaceState Z :=
  DCHECK (min_size <=? to_size_t (end_ - start)) >>
  (* During GCs we always use the full LAB. *)
  let* in_gc := IsInGC in
  if in_gc then ret end_ else
  let* inline := IsInlineAllocationEnabled in
  if negb inline then
    (* LABs are disabled, so we fit the requested area exactly. *)
    ret (to_size_t (start + min_size))
  else
  (* When LABs are enabled, pick the largest possible LAB size by default. *)
  let step_size := to_size_t (end_ - start) in
  let* observed := and_then SupportsAllocationObserver IsAllocationObserverActive in
  let* step_size :=
    if observed then
      (* Ensure there are no unaccounted allocations. *)
      let* info := allocator_allocation_info in
      DCHECK (start_ info =? top_ info) >>
      let* step := NextBytes in
      DCHECK (negb (step =? 0)) >>
      (* Generated code may allocate inline from the linear allocation area.
         To make sure we can observe these allocations, we use a lower
         limit. *)
      let rounded_step :=
        to_size_t (RoundSizeDownToObjectAlignment (to_int (to_size_t (step - 1)))) in
      ret (Z.min step_size rounded_step)
    else ret step_size in
  let* stress := v8_flags_stress_marking in
  let step_size := if stress then Z.min step_size (to_size_t 64) else step_size in
  DCHECK (to_size_t (start + step_size) <=? end_) >>
  ret (to_size_t (start + Z.max step_size min_size)).

(** What [ComputeLimit] asserts about the allocator when it takes the
    observer branch: no unaccounted allocation, and a nonzero distance to
    the next sample. *)
Definition observer_dchecks_hold (s : SpaceState) : Prop :=
  is_in_gc s = false ->
  inline_allocation_enabled s = true ->
  supports_allocation_observer s = true ->
  allocation_observer_active s = true ->
  start_ (allocation_info s) = top_ (allocation_info s) /\ next_bytes s <> 0.

End SpaceWithLinearArea.

(** ** LocalAllocationBuffer *)

Module LocalAllocationBuffer.

(** [LocalAllocationBuffer] objects live in memory and are passed by
    reference ([this], [other]), so the two fields of every object are kept
    per object address.  A field that was never written (storage of an
    object under construction) is absent, and reading it has no result.
    [fillers] records, oldest first, the calls
    [heap->CreateFillerObjectAtBackground(address, size)] as
    [(heap, address, size)]. *)
Record Memory := mkMemory {
  heap_ : gmap Z Z;
  allocation_info_ : gmap Z LinearAllocationArea;
  fillers : list (Z * Z * Z)
}.

Definition read_heap_ (this : Z) : M Memory Z := fun m =>
  match heap_ m !! this with
  | Some h => Some (h, m)
  | None => None
  end.

Definition write_heap_ (this h : Z) : M Memory unit :=
  modify (fun m => mkMemory (<[this := h]> (heap_ m)) (allocation_info_ m) (fillers m)).

Definition read_allocation_info_ (this : Z) : M Memory LinearAllocationArea := fun m =>
  match allocation_info_ m !! this with
  | Some a => Some (a, m)
  | None => None
  end.

Definition write_allocation_info_ (this : Z) (a : LinearAllocationArea) : M Memory unit :=
  modify (fun m => mkMemory (heap_ m) (<[this := a]> (allocation_info_ m)) (fillers m)).

(** Modelled from the spec: [Heap::CreateFillerObjectAtBackground(Address,
    int)] is declared in [src/heap/heap.h]; it writes a filler object of
    [size] bytes at [addr] and touches nothing else this file can see. *)
Definition CreateFillerObjectAtBackground (heap addr size : Z) : M Memory unit :=
  modify (fun m => mkMemory (heap_ m) (allocation_info_ m) (fillers m ++ [(heap, addr, size)])).

(** The area is the null sentinel [start = top = limit = 0]. *)
Definition is_null (a : LinearAllocationArea) : bool :=
  (start_ a =? kNullAddress) && (top_ a =? kNullAddress) && (limit_ a =? kNullAddress).

(** Modelled from the spec: [IsValid()] is defined in the class body, in a
    header; it is true iff the owned area is non-null. *)
Definition IsValid (this : Z) : M Memory bool :=
  let* info := read_allocation_info_ this in
  ret (negb (is_null info)).

Definition MakeIterable (this : Z) : M Memory unit :=
  let* valid := IsValid this in
  if valid then
    let* heap := read_heap_ this in
    let* info := read_allocation_info_ this in
    CreateFillerObjectAtBackground heap (top_ info)
      (to_int (to_size_t (limit_ info - top_ info)))
  else ret tt.

Definition CloseAndMakeIterable (this : Z) : M Memory LinearAllocationArea :=
  let* valid := IsValid this in
  if valid then
    MakeIterable this >>
    let* old_info := read_allocation_info_ this in
    write_allocation_info_ this (LinearAllocationArea_new kNullAddress kNullAddress) >>
    ret old_info
  else ret (LinearAllocationArea_new kNullAddress kNullAddress).

(** [LocalAllocationBuffer(Heap* heap, LinearAllocationArea allocation_info)] *)
Definition LocalAllocationBuffer (this heap : Z) (allocation_info : LinearAllocationArea)
  : M Memory unit :=
  write_heap_ this heap >>
  write_allocation_info_ this allocation_info.

(** [operator=(LocalAllocationBuffer&& other)]; the result is [*this]. *)
Definition operator_assign (this other : Z) : M Memory Z :=
  let* h := read_heap_ other in
  write_heap_ this h >>
  let* a := read_allocation_info_ other in
  write_allocation_info_ this a >>
  let* a' := read_allocation_info_ other in
  write_allocation_info_ other (Reset kNullAddress kNullAddress a') >>
  ret this.

(** [LocalAllocationBuffer(LocalAllocationBuffer&& other)]:
    [*this = std::move(other)] on the storage of the new object. *)
Definition LocalAllocationBuffer_move (this other : Z) : M Memory unit :=
  operator_assign this other >>
  ret tt.

End LocalAllocationBuffer.

(** ** SpaceIterator *)

Module SpaceIterator.

Section WithSpace.
Context `{Build} {Space : Type}.

(** The iterator's fields.  [heap_] stands for the heap the pointer refers
    to, reduced to what the iterator reads of it.  Modelled from the spec:
    [Heap::space(int)] is declared in [src/heap/heap.h]; it returns the
    [Space*] stored for an id, or null: the lookup [heap_ it !! id].
    [current_space_] is an [int]; it is only ever incremented from
    [FIRST_MUTABLE_SPACE], one slot per call, and is kept unbounded. *)
Record SpaceIterator := mkSpaceIterator {
  heap_ : gmap Z Space;
  current_space_ : Z
}.

(** [SpaceIterator::SpaceIterator(Heap* heap)] *)
Definition new (heap : gmap Z Space) : SpaceIterator :=
  {| heap_ := heap; current_space_ := FIRST_MUTABLE_SPACE |}.

(** [HasNext()]: the result and the iterator afterwards.  The loop runs at
    most [LAST_MUTABLE_SPACE + 1 - current_space_] times. *)
Equations? HasNext (it : SpaceIterator) : bool * SpaceIterator
  by wf (Z.to_nat (LAST_MUTABLE_SPACE + 1 - current_space_ it)) lt :=
  HasNext it with Z_le_dec (current_space_ it) LAST_MUTABLE_SPACE := {
    | left _ with heap_ it !! current_space_ it := {
        | Some _ => (true, it)
        | None => HasNext {| heap_ := heap_ it; current_space_ := current_space_ it + 1 |} };
    | right _ =>
        (* No more spaces left. *)
        (false, it) }.
Proof. simpl. lia. Qed.

(** [Next()]: the returned pointer may be null only in a release build. *)
Definition Next : M SpaceIterator (option Space) :=
  let* cur := gets current_space_ in
  DCHECK (cur <=? LAST_MUTABLE_SPACE) >>
  let* space := gets (fun it => heap_ it !! cur) in
  modify (fun it => {| heap_ := heap_ it; current_space_ := cur + 1 |}) >>
  DCHECK (bool_decide (is_Some space)) >>
  ret space.

(** The iteration protocol of the callers,
    [while (it.HasNext()) { out.push_back(it.Next()); }], unrolled at most
    [fuel] times.  [None]: a [DCHECK] of [Next] failed, or the loop was cut
    off by [fuel]. *)
Fixpoint iterate (fuel : nat) (it : SpaceIterator) : option (list (option Space) * SpaceIterator) :=
  match fuel with
  | O => None
  | S fuel =>
      let '(more, it1) := HasNext it in
      if more then
        match Next it1 with
        | Some (space, it2) =>
            match iterate fuel it2 with
            | Some (rest, it3) => Some (space :: rest, it3)
            | None => None
            end
        | None => None
        end
      else Some ([], it1)
  end.

(** The states an iterator goes through: built by the constructor, then
    any sequence of [HasNext] and (returning) [Next] calls. *)
Inductive reachable (heap : gmap Z Space) : SpaceIterator -> Prop :=
| reachable_new : reachable heap (new heap)
| reachable_HasNext it : reachable heap it -> reachable heap (HasNext it).2
| reachable_Next it space it' :
    reachable heap it -> Next it = Some (space, it') -> reachable heap it'.

End WithSpace.

Arguments SpaceIterator : clear implicits.

End SpaceIterator.

(** ** Concrete configurations

    An x64 build without pointer compression (8-byte object alignment) whose
    mutable spaces have the ids 0 to 7, a space outside GC with inline
    allocation enabled and an active observer, used to run the definitions
    on concrete inputs. *)

Definition example_build (debug : bool) : Build :=
  {| DEBUG := debug; kObjectAlignmentBits := 3;
     FIRST_MUTABLE_SPACE := 0; LAST_MUTABLE_SPACE := 7 |}.

Definition example_space (gc inline stress : bool) (step : Z) : SpaceWithLinearArea.SpaceState :=
  {| SpaceWithLinearArea.is_in_gc := gc;
     SpaceWithLinearArea.inline_allocation_enabled := inline;
     SpaceWithLinearArea.allocation_observer_active := true;
     SpaceWithLinearArea.supports_allocation_observer := true;
     SpaceWithLinearArea.allocation_info := mkArea 0x1000 0x1000 0x2000;
     SpaceWithLinearArea.next_bytes := step;
     SpaceWithLinearArea.stress_marking := stress |}.

(** A memory with one valid buffer at address [0x10], owned by the heap at
    [0x7000], whose unused part runs from [top] to [limit]. *)
Definition example_memory (top limit : Z) : LocalAllocationBuffer.Memory :=
  LocalAllocationBuffer.mkMemory
    {[ 0x10 := 0x7000 ]} {[ 0x10 := mkArea 0x1000 top limit ]} [].

(** A heap with spaces at the ids 2, 5 and 7 only; a space is named by its
    id. *)
Definition example_heap : gmap Z Z := {[ 2 := 2; 5 := 5; 7 := 7 ]}.

(** ** States used to compare runs *)

(** The same space with the [stress_marking] flag set to [b]. *)
Definition with_stress_marking (b : bool) (s : SpaceWithLinearArea.SpaceState)
  : SpaceWithLinearArea.SpaceState :=
  {| SpaceWithLinearArea.is_in_gc := SpaceWithLinearArea.is_in_gc s;
     SpaceWithLinearArea.inline_allocation_enabled :=
       SpaceWithLinearArea.inline_allocation_enabled s;
     SpaceWithLinearArea.allocation_observer_active :=
       SpaceWithLinearArea.allocation_observer_active s;
     SpaceWithLinearArea.supports_allocation_observer :=
       SpaceWithLinearArea.supports_allocation_observer s;
     SpaceWithLinearArea.allocation_info := SpaceWithLinearArea.allocation_info s;
     SpaceWithLinearArea.next_bytes := SpaceWithLinearArea.next_bytes s;
     SpaceWithLinearArea.stress_marking := b |}.

(** The same space on a heap whose [IsAllocationObserverActive()] answers
    [b]. *)
Definition with_allocation_observer_active (b : bool) (s : SpaceWithLinearArea.SpaceState)
  : SpaceWithLinearArea.SpaceState :=
  {| SpaceWithLinearArea.is_in_gc := SpaceWithLinearArea.is_in_gc s;
     SpaceWithLinearArea.inline_allocation_enabled :=
       SpaceWithLinearArea.inline_allocation_enabled s;
     SpaceWithLinearArea.allocation_observer_active := b;
     SpaceWithLinearArea.supports_allocation_observer :=
       SpaceWithLinearArea.supports_allocation_observer s;
     SpaceWithLinearArea.allocation_info := SpaceWithLinearArea.allocation_info s;
     SpaceWithLinearArea.next_bytes := SpaceWithLinearArea.next_bytes s;
     SpaceWithLinearArea.stress_marking := SpaceWithLinearArea.stress_marking s |}.

(** [advances it it']: [it'] is [it] after any number of [HasNext] and
    (returning) [Next] calls. *)
Inductive advances `{Build} {Space : Type}
  : SpaceIterator.SpaceIterator Space -> SpaceIterator.SpaceIterator Space -> Prop :=
| advances_refl it : advances it it
| advances_HasNext it it' :
    advances it it' -> advances it (SpaceIterator.HasNext it').2
| advances_Next it it' space it'' :
    advances it it' -> SpaceIterator.Next it' = Some (space, it'') -> advances it it''.

(** * Properties *)

Import SpaceWithLinearArea.

(** ** Machine integers *)

Lemma to_size_t_range x : 0 <= to_size_t x < 2 ^ 64.
Proof. unfold to_size_t. apply Z.mod_pos_bound. lia. Qed.

Lemma to_size_t_id x : 0 <= x < 2 ^ 64 -> to_size_t x = x.
Proof. unfold to_size_t. intros Hx. apply Z.mod_small. exact Hx. Qed.

Lemma to_int_range x : - 2 ^ 31 <= to_int x < 2 ^ 31.
Proof.
  unfold to_int.
  pose proof (Z.mod_pos_bound (x + 2 ^ 31) (2 ^ 32) ltac:(lia)). lia.
Qed.

Lemma to_int_id x : - 2 ^ 31 <= x < 2 ^ 31 -> to_int x = x.
Proof. unfold to_int. intros Hx. rewrite Z.mod_small by lia. lia. Qed.

Lemma kObjectAlignment_pos `{Build} : 0 < kObjectAlignment.
Proof. unfold kObjectAlignment. apply Z.pow_pos_nonneg; lia. Qed.

(** Rounding down gives a multiple of the alignment ... *)
Lemma RoundSizeDownToObjectAlignment_aligned `{Build} x :
  RoundSizeDownToObjectAlignment x mod kObjectAlignment = 0.
Proof.
  pose proof kObjectAlignment_pos as Hpos.
  unfold RoundSizeDownToObjectAlignment.
  rewrite Zminus_mod, Z.mod_mod, Z.sub_diag by lia.
  apply Z.mod_0_l. lia.
Qed.

(** ... that is at most [x] and less than one alignment step below it. *)
Lemma RoundSizeDownToObjectAlignment_le `{Build} x :
  x - kObjectAlignment < RoundSizeDownToObjectAlignment x <= x.
Proof.
  pose proof kObjectAlignment_pos as Hpos.
  unfold RoundSizeDownToObjectAlignment.
  pose proof (Z.mod_pos_bound x kObjectAlignment Hpos). lia.
Qed.

Lemma RoundSizeDownToObjectAlignment_nonneg `{Build} x :
  0 <= x -> 0 <= RoundSizeDownToObjectAlignment x.
Proof.
  intros Hx. pose proof kObjectAlignment_pos as Hpos.
  unfold RoundSizeDownToObjectAlignment.
  pose proof (Z.mod_le x kObjectAlignment Hx Hpos). lia.
Qed.

(** The same value with the mask the headers use:
    [size & ~(kObjectAlignment - 1)]. *)
Lemma RoundSizeDownToObjectAlignment_mask `{Build} x :
  RoundSizeDownToObjectAlignment x = Z.land x (Z.lnot (kObjectAlignment - 1)).
Proof.
  unfold RoundSizeDownToObjectAlignment, kObjectAlignment.
  replace (2 ^ Z.of_nat kObjectAlignmentBits - 1) with (Z.ones (Z.of_nat kObjectAlignmentBits))
    by (rewrite Z.ones_equiv; lia).
  rewrite <- Z.ldiff_land.
  rewrite Z.ldiff_ones_r by lia.
  rewrite Z.shiftr_div_pow2, Z.shiftl_mul_pow2 by lia.
  pose proof (Z.div_mod x (2 ^ Z.of_nat kObjectAlignmentBits)
                ltac:(apply Z.pow_nonzero; lia)).
  lia.
Qed.

(** For a step that fits in [int], the conversions around the rounding
    lose nothing. *)
Lemma rounded_step_exact `{Build} step :
  1 <= step <= 2 ^ 31 ->
  to_size_t (RoundSizeDownToObjectAlignment (to_int (to_size_t (step - 1))))
  = RoundSizeDownToObjectAlignment (step - 1).
Proof.
  intros Hs.
  rewrite (to_size_t_id (step - 1)) by lia.
  rewrite to_int_id by lia.
  pose proof (RoundSizeDownToObjectAlignment_le (step - 1)).
  pose proof (RoundSizeDownToObjectAlignment_nonneg (step - 1) ltac:(lia)).
  apply to_size_t_id. lia.
Qed.

(** ** ComputeLimit *)

Ltac unfold_M :=
  unfold and_then, IsInGC, IsInlineAllocationEnabled, IsAllocationObserverActive,
    SupportsAllocationObserver, allocator_allocation_info, NextBytes,
    v8_flags_stress_marking, bind, ret, gets, modify, DCHECK in *.

Ltac split_ifs :=
  repeat match goal with
    | H : context [if ?b then _ else _] |- _ => destruct b eqn:?; simpl in H
    | |- context [if ?b then _ else _] => destruct b eqn:?; simpl
    end.

(** The value [ComputeLimit] returns when none of its assertions stops it,
    as one expression. *)
Lemma ComputeLimit_returns `{Build} s start end_ min_size r s' :
  ComputeLimit start end_ min_size s = Some (r, s') ->
  s' = s /\
  r = if is_in_gc s then end_
      else if negb (inline_allocation_enabled s) then to_size_t (start + min_size)
      else
        let step_size := to_size_t (end_ - start) in
        let step_size :=
          if supports_allocation_observer s && allocation_observer_active s
          then Z.min step_size
                 (to_size_t (RoundSizeDownToObjectAlignment
                               (to_int (to_size_t (next_bytes s - 1)))))
          else step_size in
        let step_size := if stress_marking s then Z.min step_size (to_size_t 64) else step_size in
        to_size_t (start + Z.max step_size min_size).
Proof.
  unfold ComputeLimit. unfold_M. intros Hrun.
  destruct s as [gc inl act sup info nb stress]; simpl in *.
  split_ifs; try discriminate; inversion Hrun; subst; auto.
Qed.

(** [ComputeLimit] returns unless a debug build trips over one of the
    caller's obligations. *)
Lemma ComputeLimit_defined `{Build} s start end_ min_size :
  is_size_t start -> is_size_t end_ -> is_size_t min_size ->
  min_size <= end_ - start ->
  (DEBUG = true -> observer_dchecks_hold s) ->
  is_Some (ComputeLimit start end_ min_size s).
Proof.
  unfold is_size_t, observer_dchecks_hold. intros Hs He Hm Hfit Hobs.
  unfold ComputeLimit. unfold_M.
  rewrite (to_size_t_id (end_ - start)) by lia.
  change (to_size_t 64) with 64.
  destruct s as [gc inl act sup info nb stress]; simpl in *.
  pose proof (to_size_t_range
    (RoundSizeDownToObjectAlignment (to_int (to_size_t (nb - 1))))) as HR.
  set (R := to_size_t _) in *.
  assert (Hfinal : forall step, 0 <= step <= end_ - start ->
            (to_size_t (start + step) <=? end_) = true).
  { intros step Hstep. rewrite to_size_t_id by lia. apply Z.leb_le. lia. }
  replace (min_size <=? end_ - start) with true by (symmetry; apply Z.leb_le; lia).
  rewrite andb_false_r.
  destruct gc; [eauto |].
  destruct inl; simpl; [| eauto].
  destruct sup, act; simpl.
  2-4: destruct stress; cbv iota; rewrite Hfinal by lia; cbn [negb]; rewrite andb_false_r; eauto.
  destruct DEBUG; simpl.
  - destruct (Hobs eq_refl eq_refl eq_refl eq_refl eq_refl) as [Htop Hnb].
    replace (start_ info =? top_ info) with true by (symmetry; apply Z.eqb_eq; exact Htop).
    simpl.
    replace (nb =? 0) with false by (symmetry; apply Z.eqb_neq; exact Hnb).
    simpl. fold R. destruct stress; rewrite Hfinal by lia; eauto.
  - destruct stress; eauto.
Qed.

(** The bounds of the returned limit, from the expression of
    [ComputeLimit_returns]. *)
Lemma ComputeLimit_value_bounds `{Build} s start end_ min_size r s' :
  is_size_t start -> is_size_t end_ -> is_size_t min_size ->
  min_size <= end_ - start ->
  ComputeLimit start end_ min_size s = Some (r, s') ->
  start + min_size <= r <= end_ /\
  (is_in_gc s = false -> inline_allocation_enabled s = true ->
   stress_marking s = true -> r <= start + Z.max 64 min_size).
Proof.
  unfold is_size_t. intros Hs He Hm Hfit Hrun.
  apply ComputeLimit_returns in Hrun as [_ ->].
  rewrite (to_size_t_id (end_ - start)) by lia.
  change (to_size_t 64) with 64.
  pose proof (to_size_t_range
    (RoundSizeDownToObjectAlignment (to_int (to_size_t (next_bytes s - 1))))) as HR.
  set (R := to_size_t (RoundSizeDownToObjectAlignment _)) in *.
  destruct (is_in_gc s); [split; [lia | discriminate] |].
  destruct (inline_allocation_enabled s); cbn [negb].
  2:{ rewrite to_size_t_id by lia. split; [lia | discriminate]. }
  destruct (supports_allocation_observer s && allocation_observer_active s);
    destruct (stress_marking s); cbv zeta;
    rewrite to_size_t_id by lia; (split; [lia | intros; try discriminate; lia]).
Qed.

(** C1. For every [start <= end] and [min_size <= end - start],
    [ComputeLimit(start, end, min_size)] returns a limit [r] with
    [start + min_size <= r <= end], whatever the GC, inline-allocation,
    observer and stress-flag states are: every returned value is within
    these bounds, and the call does return whenever the assertions of a
    debug build hold (always, in a release build). *)
Theorem ComputeLimit_within_bounds `{Build} s start end_ min_size :
  is_size_t start -> is_size_t end_ -> is_size_t min_size ->
  start <= end_ -> min_size <= end_ - start ->
  (forall r s', ComputeLimit start end_ min_size s = Some (r, s') ->
                start + min_size <= r <= end_) /\
  ((DEBUG = true -> observer_dchecks_hold s) ->
   exists r, ComputeLimit start end_ min_size s = Some (r, s) /\
             start + min_size <= r <= end_).
Proof.
  intros Hs He Hm _ Hfit. split.
  - intros r s' Hrun. eapply ComputeLimit_value_bounds; eauto.
  - intros Hobs.
    destruct (ComputeLimit_defined s start end_ min_size Hs He Hm Hfit Hobs)
      as [[r s'] Hrun].
    pose proof (ComputeLimit_returns _ _ _ _ _ _ Hrun) as [-> _].
    exists r. split; [exact Hrun |].
    eapply ComputeLimit_value_bounds; eauto.
Qed.

(** C3. If the heap is performing a garbage collection,
    [ComputeLimit(start, end, min_size)] returns [end], whatever the
    inline-allocation, observer and stress-flag states are. *)
Theorem ComputeLimit_in_gc `{Build} s start end_ min_size :
  is_size_t start -> is_size_t end_ -> is_size_t min_size ->
  min_size <= end_ - start ->
  is_in_gc s = true ->
  ComputeLimit start end_ min_size s = Some (end_, s).
Proof.
  unfold is_size_t. intros Hs He Hm Hfit Hgc.
  unfold ComputeLimit. unfold_M.
  rewrite (to_size_t_id (end_ - start)) by lia.
  replace (min_size <=? end_ - start) with true by (symmetry; apply Z.leb_le; lia).
  rewrite andb_false_r, Hgc. reflexivity.
Qed.

(** C4. If the heap is not in GC and inline allocation is disabled,
    [ComputeLimit(start, end, min_size)] returns exactly
    [start + min_size], whatever the observer and stress-flag states are. *)
Theorem ComputeLimit_inline_allocation_disabled `{Build} s start end_ min_size :
  is_size_t start -> is_size_t end_ -> is_size_t min_size ->
  min_size <= end_ - start ->
  is_in_gc s = false ->
  inline_allocation_enabled s = false ->
  ComputeLimit start end_ min_size s = Some (start + min_size, s).
Proof.
  unfold is_size_t. intros Hs He Hm Hfit Hgc Hinl.
  unfold ComputeLimit. unfold_M.
  rewrite (to_size_t_id (end_ - start)) by lia.
  replace (min_size <=? end_ - start) with true by (symmetry; apply Z.leb_le; lia).
  rewrite andb_false_r, Hgc, Hinl. cbn [negb].
  rewrite to_size_t_id by lia. reflexivity.
Qed.

(** C5. With the stress-marking flag set, outside GC and with inline
    allocation enabled, [ComputeLimit(start, end, min_size)] is at most
    [start + max(64, min_size)]; with [start = 0x1000], [end = 0x2000],
    [min_size = 0x10] and no active observer the result is [0x1040]. *)
Theorem ComputeLimit_stress_marking `{Build} s start end_ min_size :
  is_size_t start -> is_size_t end_ -> is_size_t min_size ->
  min_size <= end_ - start ->
  is_in_gc s = false ->
  inline_allocation_enabled s = true ->
  stress_marking s = true ->
  (forall r s', ComputeLimit start end_ min_size s = Some (r, s') ->
                r <= start + Z.max 64 min_size) /\
  ((DEBUG = true -> observer_dchecks_hold s) ->
   exists r, ComputeLimit start end_ min_size s = Some (r, s) /\
             r <= start + Z.max 64 min_size) /\
  (allocation_observer_active s = false ->
   ComputeLimit 0x1000 0x2000 0x10 s = Some (0x1040, s)).
Proof.
  intros Hs He Hm Hfit Hgc Hinl Hstress. split; [| split].
  - intros r s' Hrun.
    destruct (ComputeLimit_value_bounds s start end_ min_size r s') as [_ Hb]; auto.
  - intros Hobs.
    destruct (ComputeLimit_defined s start end_ min_size Hs He Hm Hfit Hobs)
      as [[r s'] Hrun].
    pose proof (ComputeLimit_returns _ _ _ _ _ _ Hrun) as [-> _].
    exists r. split; [exact Hrun |].
    destruct (ComputeLimit_value_bounds s start end_ min_size r s) as [_ Hb]; auto.
  - intros Hact.
    assert (Hobs : DEBUG = true -> observer_dchecks_hold s).
    { intros _ _ _ _ Hactive. congruence. }
    destruct (ComputeLimit_defined s 0x1000 0x2000 0x10) as [[r s'] Hrun];
      [unfold is_size_t; lia .. | exact Hobs |].
    rewrite Hrun.
    apply ComputeLimit_returns in Hrun as [-> ->].
    rewrite Hgc, Hinl, Hact, Hstress, andb_false_r. reflexivity.
Qed.

(** C10. [ComputeLimit] is a pure query: it leaves the space's linear
    allocation area, the allocation counter and every other part of the
    state as they were, and two calls made in the same state return the
    same limit. *)
Theorem ComputeLimit_pure `{Build} s start end_ min_size :
  is_size_t start -> is_size_t end_ -> is_size_t min_size ->
  min_size <= end_ - start ->
  (forall r s', ComputeLimit start end_ min_size s = Some (r, s') ->
     s' = s /\
     (let* r1 := ComputeLimit start end_ min_size in
      let* r2 := ComputeLimit start end_ min_size in
      ret (r1, r2)) s = Some ((r, r), s)) /\
  ((DEBUG = true -> observer_dchecks_hold s) ->
   exists r, ComputeLimit start end_ min_size s = Some (r, s)).
Proof.
  intros Hs He Hm Hfit. split.
  - intros r s' Hrun.
    pose proof (ComputeLimit_returns _ _ _ _ _ _ Hrun) as [-> _].
    split; [reflexivity |].
    unfold bind at 1. rewrite Hrun.
    unfold bind at 1. rewrite Hrun. reflexivity.
  - intros Hobs.
    destruct (ComputeLimit_defined s start end_ min_size Hs He Hm Hfit Hobs)
      as [[r s'] Hrun].
    pose proof (ComputeLimit_returns _ _ _ _ _ _ Hrun) as [-> _].
    exists r. exact Hrun.
Qed.

(** C2 (amended). Outside GC, with inline allocation enabled, the stress
    flag off, and an active observer on a space that supports allocation
    observers, whose counter reports [NextBytes() = k] with [k] nonzero and
    [k - 1] within [int] (the tracked area's top being its start),
    [ComputeLimit(start, end, min_size)] is
    [start + max(min_size, round_down_to_object_alignment(k - 1))] clamped
    to [end]. *)
Theorem ComputeLimit_observer_step `{Build} s start end_ min_size k :
  is_size_t start -> is_size_t end_ -> is_size_t min_size ->
  min_size <= end_ - start ->
  is_in_gc s = false ->
  inline_allocation_enabled s = true ->
  stress_marking s = false ->
  supports_allocation_observer s = true ->
  allocation_observer_active s = true ->
  start_ (allocation_info s) = top_ (allocation_info s) ->
  next_bytes s = k ->
  k <> 0 -> 0 <= k - 1 <= kMaxInt ->
  ComputeLimit start end_ min_size s
  = Some (Z.min end_ (start + Z.max min_size (RoundSizeDownToObjectAlignment (k - 1))), s).
Proof.
  unfold is_size_t, kMaxInt.
  intros Hs He Hm Hfit Hgc Hinl Hstress Hsup Hact Htop Hk Hk0 Hint.
  assert (Hobs : DEBUG = true -> observer_dchecks_hold s).
  { intros _ _ _ _ _. split; [exact Htop | congruence]. }
  destruct (ComputeLimit_defined s start end_ min_size) as [[r s'] Hrun];
    [assumption .. |].
  rewrite Hrun.
  apply ComputeLimit_returns in Hrun as [-> ->].
  rewrite Hgc, Hinl, Hstress, Hsup, Hact, Hk. cbn [negb andb]. cbv zeta.
  rewrite rounded_step_exact by lia.
  rewrite (to_size_t_id (end_ - start)) by lia.
  pose proof (RoundSizeDownToObjectAlignment_nonneg (k - 1) ltac:(lia)).
  rewrite to_size_t_id by lia.
  f_equal. f_equal. lia.
Qed.

(** C2 as stated fails once [k - 1] does not fit in [int]: with
    [NextBytes() = 2^32 + 17] the conversion [static_cast<int>(step - 1)]
    keeps only the low 32 bits, [16], so for [start = 0x1000],
    [end = 0x2000], [min_size = 0x10] the code returns [0x1010], while
    [start + max(min_size, round_down(k - 1))] clamped to [end] is
    [0x2000].  It also fails on a space that does not support allocation
    observers: there the heap's active observer is not consulted, and with
    [NextBytes() = 100] the code returns [0x2000], not [0x1060]. *)
Lemma ComputeLimit_observer_step_beyond_int :
  let B := example_build true in
  let s := example_space false true false (2 ^ 32 + 17) in
  let unsupported :=
    mkSpaceState false true true false (mkArea 0x1000 0x1000 0x2000) 100 false in
  @ComputeLimit B 0x1000 0x2000 0x10 s = Some (0x1010, s) /\
  Z.min 0x2000
    (0x1000 + Z.max 0x10 (@RoundSizeDownToObjectAlignment B (2 ^ 32 + 17 - 1))) = 0x2000 /\
  @ComputeLimit B 0x1000 0x2000 0x10 unsupported = Some (0x2000, unsupported) /\
  Z.min 0x2000
    (0x1000 + Z.max 0x10 (@RoundSizeDownToObjectAlignment B (100 - 1))) = 0x1060 /\
  ~ (forall (B : Build) s start end_ min_size k,
       is_size_t start -> is_size_t end_ -> is_size_t min_size ->
       min_size <= end_ - start ->
       is_in_gc s = false ->
       inline_allocation_enabled s = true ->
       stress_marking s = false ->
       supports_allocation_observer s = true ->
       allocation_observer_active s = true ->
       start_ (allocation_info s) = top_ (allocation_info s) ->
       next_bytes s = k ->
       is_size_t k -> k <> 0 ->
       ComputeLimit start end_ min_size s
       = Some (Z.min end_
                 (start + Z.max min_size (RoundSizeDownToObjectAlignment (k - 1))), s)).
Proof.
  intros B s unsupported.
  split; [reflexivity |]. split; [reflexivity |].
  split; [reflexivity |]. split; [reflexivity |].
  intros Hclaim.
  specialize (Hclaim B s 0x1000 0x2000 0x10 (2 ^ 32 + 17)).
  unfold is_size_t in Hclaim.
  assert (Hrun : @ComputeLimit B 0x1000 0x2000 0x10 s = Some (0x2000, s)).
  { apply Hclaim; try reflexivity; lia. }
  vm_compute in Hrun. discriminate Hrun.
Qed.

Lemma ComputeLimit_observer_step_witness :
  let B := example_build true in
  let s := example_space false true false 100 in
  (is_size_t 0x1000 /\ is_size_t 0x2000 /\ is_size_t 0x10 /\
   0x10 <= 0x2000 - 0x1000 /\ 100 <> 0 /\ 0 <= 100 - 1 <= kMaxInt) /\
  @ComputeLimit B 0x1000 0x2000 0x10 s
  = Some (Z.min 0x2000
            (0x1000 + Z.max 0x10 (@RoundSizeDownToObjectAlignment B (100 - 1))), s).
Proof.
  intros B s.
  assert (Hsz : is_size_t 0x1000 /\ is_size_t 0x2000 /\ is_size_t 0x10).
  { unfold is_size_t. lia. }
  assert (Hint : 0 <= 100 - 1 <= kMaxInt) by (unfold kMaxInt; lia).
  split; [repeat split; solve [apply Hsz | lia | apply Hint] |].
  apply (@ComputeLimit_observer_step B s 0x1000 0x2000 0x10 100);
    solve [apply Hsz | reflexivity | lia | exact Hint].
Defined.

Lemma ComputeLimit_within_bounds_witness :
  let B := example_build true in
  let s := example_space false true true 100 in
  (is_size_t 0x1000 /\ is_size_t 0x2000 /\ is_size_t 0x10 /\
   0x1000 <= 0x2000 /\ 0x10 <= 0x2000 - 0x1000) /\
  (forall r s', @ComputeLimit B 0x1000 0x2000 0x10 s = Some (r, s') ->
                0x1000 + 0x10 <= r <= 0x2000) /\
  @ComputeLimit B 0x1000 0x2000 0x10 s = Some (0x1040, s).
Proof.
  intros B s.
  assert (Hsz : is_size_t 0x1000 /\ is_size_t 0x2000 /\ is_size_t 0x10).
  { unfold is_size_t. lia. }
  split; [repeat split; solve [apply Hsz | lia] |].
  split; [| reflexivity].
  apply (@ComputeLimit_within_bounds B s 0x1000 0x2000 0x10);
    solve [apply Hsz | lia].
Defined.

Lemma ComputeLimit_in_gc_witness :
  let B := example_build true in
  let s := example_space true true true 100 in
  (is_size_t 0x1000 /\ is_size_t 0x2000 /\ is_size_t 0x10 /\
   0x10 <= 0x2000 - 0x1000 /\ is_in_gc s = true) /\
  @ComputeLimit B 0x1000 0x2000 0x10 s = Some (0x2000, s).
Proof.
  intros B s.
  assert (Hsz : is_size_t 0x1000 /\ is_size_t 0x2000 /\ is_size_t 0x10).
  { unfold is_size_t. lia. }
  split; [repeat split; solve [apply Hsz | lia | reflexivity] |].
  apply (@ComputeLimit_in_gc B s 0x1000 0x2000 0x10);
    solve [apply Hsz | lia | reflexivity].
Defined.

Lemma ComputeLimit_inline_allocation_disabled_witness :
  let B := example_build true in
  let s := example_space false false true 100 in
  (is_size_t 0x1000 /\ is_size_t 0x2000 /\ is_size_t 0x10 /\
   0x10 <= 0x2000 - 0x1000 /\
   is_in_gc s = false /\ inline_allocation_enabled s = false) /\
  @ComputeLimit B 0x1000 0x2000 0x10 s = Some (0x1000 + 0x10, s).
Proof.
  intros B s.
  assert (Hsz : is_size_t 0x1000 /\ is_size_t 0x2000 /\ is_size_t 0x10).
  { unfold is_size_t. lia. }
  split; [repeat split; solve [apply Hsz | lia | reflexivity] |].
  apply (@ComputeLimit_inline_allocation_disabled B s 0x1000 0x2000 0x10);
    solve [apply Hsz | lia | reflexivity].
Defined.

Lemma ComputeLimit_stress_marking_witness :
  let B := example_build true in
  let s := example_space false true true 1000 in
  (is_size_t 0x1000 /\ is_size_t 0x2000 /\ is_size_t 0x100 /\
   0x100 <= 0x2000 - 0x1000 /\
   is_in_gc s = false /\ inline_allocation_enabled s = true /\
   stress_marking s = true) /\
  (forall r s', @ComputeLimit B 0x1000 0x2000 0x100 s = Some (r, s') ->
                r <= 0x1000 + Z.max 64 0x100) /\
  @ComputeLimit B 0x1000 0x2000 0x100 s = Some (0x1100, s).
Proof.
  intros B s.
  assert (Hsz : is_size_t 0x1000 /\ is_size_t 0x2000 /\ is_size_t 0x100).
  { unfold is_size_t. lia. }
  split; [repeat split; solve [apply Hsz | lia | reflexivity] |].
  split; [| reflexivity].
  apply (@ComputeLimit_stress_marking B s 0x1000 0x2000 0x100);
    solve [apply Hsz | lia | reflexivity].
Defined.

Lemma ComputeLimit_pure_witness :
  let B := example_build true in
  let s := example_space false true false 100 in
  (is_size_t 0x1000 /\ is_size_t 0x2000 /\ is_size_t 0x10 /\
   0x10 <= 0x2000 - 0x1000) /\
  (let* r1 := @ComputeLimit B 0x1000 0x2000 0x10 in
   let* r2 := @ComputeLimit B 0x1000 0x2000 0x10 in
   ret (r1, r2)) s = Some ((0x1060, 0x1060), s).
Proof.
  intros B s.
  assert (Hsz : is_size_t 0x1000 /\ is_size_t 0x2000 /\ is_size_t 0x10).
  { unfold is_size_t. lia. }
  split; [repeat split; solve [apply Hsz | lia] |].
  apply (proj1 (@ComputeLimit_pure B s 0x1000 0x2000 0x10
                  ltac:(apply Hsz) ltac:(apply Hsz) ltac:(apply Hsz) ltac:(lia))
           0x1060 s).
  reflexivity.
Defined.

(** ** LocalAllocationBuffer *)

Import LocalAllocationBuffer.

Ltac unfold_LAB :=
  unfold CloseAndMakeIterable, MakeIterable, IsValid, operator_assign,
    LocalAllocationBuffer_move, LocalAllocationBuffer.LocalAllocationBuffer,
    CreateFillerObjectAtBackground, read_heap_, write_heap_,
    read_allocation_info_, write_allocation_info_, bind, ret, gets, modify in *.

Lemma is_null_null_area : is_null null_area = true.
Proof. reflexivity. Qed.

Lemma is_null_iff a : is_null a = true <-> a = null_area.
Proof.
  destruct a as [s t l]. unfold is_null, null_area, LinearAllocationArea_new, kNullAddress.
  cbn [start_ top_ limit_]. rewrite !andb_true_iff, !Z.eqb_eq.
  split; [intros [[-> ->] ->]; reflexivity | intros [= -> -> ->]; auto].
Qed.

Lemma IsValid_lookup m this info :
  allocation_info_ m !! this = Some info ->
  IsValid this m = Some (negb (is_null info), m).
Proof. intros Hinfo. unfold_LAB. rewrite Hinfo. reflexivity. Qed.

(** A filler whose length fits in [int] is passed on unchanged. *)
Lemma filler_size_exact top limit :
  0 <= limit - top <= kMaxInt -> to_int (to_size_t (limit - top)) = limit - top.
Proof.
  unfold kMaxInt. intros Hlen.
  rewrite to_size_t_id by lia. apply to_int_id. lia.
Qed.

(** Closing a valid buffer, whatever its length. *)
Lemma CloseAndMakeIterable_valid m this heap info :
  heap_ m !! this = Some heap ->
  allocation_info_ m !! this = Some info ->
  is_null info = false ->
  CloseAndMakeIterable this m
  = Some (info,
          mkMemory (heap_ m) (<[this := null_area]> (allocation_info_ m))
            (fillers m ++ [(heap, top_ info, to_int (to_size_t (limit_ info - top_ info)))])).
Proof.
  intros Hheap Hinfo Hvalid. unfold_LAB.
  rewrite Hinfo, Hvalid. cbn. rewrite Hinfo, Hvalid. cbn.
  rewrite Hheap, Hinfo. cbn. rewrite Hinfo. reflexivity.
Qed.

Lemma CloseAndMakeIterable_invalid m this info :
  allocation_info_ m !! this = Some info ->
  is_null info = true ->
  CloseAndMakeIterable this m = Some (null_area, m).
Proof.
  intros Hinfo Hnull. unfold_LAB. rewrite Hinfo, Hnull. reflexivity.
Qed.

(** C6 (amended). For every [LocalAllocationBuffer]: if it is valid and
    [limit - top] is within [0, INT_MAX], [CloseAndMakeIterable()] writes
    the filler over [[top, limit)], returns the area the buffer held at
    entry and leaves the buffer invalid (null area); if it is already
    invalid, the call returns a null area and changes nothing; so a second
    consecutive call always returns a null area with no side effects. *)
Theorem CloseAndMakeIterable_closes_once (m : Memory) (this heap : Z)
    (info : LinearAllocationArea) :
  heap_ m !! this = Some heap ->
  allocation_info_ m !! this = Some info ->
  (IsValid this m = Some (true, m) ->
   0 <= limit_ info - top_ info <= kMaxInt ->
   exists m',
     CloseAndMakeIterable this m = Some (info, m') /\
     fillers m' = fillers m ++ [(heap, top_ info, limit_ info - top_ info)] /\
     allocation_info_ m' = <[this := null_area]> (allocation_info_ m) /\
     heap_ m' = heap_ m /\
     IsValid this m' = Some (false, m')) /\
  (IsValid this m = Some (false, m) ->
   CloseAndMakeIterable this m = Some (null_area, m)) /\
  (forall a m', CloseAndMakeIterable this m = Some (a, m') ->
                CloseAndMakeIterable this m' = Some (null_area, m')).
Proof.
  intros Hheap Hinfo.
  rewrite (IsValid_lookup m this info Hinfo).
  split; [| split].
  - intros Hvalid Hlen.
    assert (Hnull : is_null info = false).
    { destruct (is_null info); [discriminate Hvalid | reflexivity]. }
    rewrite (CloseAndMakeIterable_valid m this heap info Hheap Hinfo Hnull).
    rewrite filler_size_exact by exact Hlen.
    eexists. split; [reflexivity |]. cbn.
    repeat split.
    erewrite IsValid_lookup by (cbn; apply lookup_insert_eq).
    reflexivity.
  - intros Hvalid.
    apply (CloseAndMakeIterable_invalid m this info Hinfo).
    destruct (is_null info); [reflexivity | discriminate Hvalid].
  - intros a m' Hclose.
    destruct (is_null info) eqn:Hnull.
    + rewrite (CloseAndMakeIterable_invalid m this info Hinfo Hnull) in Hclose.
      inversion Hclose; subst.
      apply (CloseAndMakeIterable_invalid m' this info Hinfo Hnull).
    + rewrite (CloseAndMakeIterable_valid m this heap info Hheap Hinfo Hnull) in Hclose.
      inversion Hclose; subst.
      apply (CloseAndMakeIterable_invalid _ this null_area);
        [cbn; apply lookup_insert_eq | reflexivity].
Qed.

(** C6 as stated fails once [limit - top] does not fit in [int]: for a
    buffer with [top = 0x1000] and [limit = 0x1000 + 2^32 + 16],
    [static_cast<int>(limit - top)] is [16], so the filler covers
    [[0x1000, 0x1010)] and not [[top, limit)]. *)
Lemma CloseAndMakeIterable_filler_beyond_int :
  let top := 0x1000 in
  let limit := 0x1000 + 2 ^ 32 + 16 in
  let m := example_memory top limit in
  IsValid 0x10 m = Some (true, m) /\
  (fillers <$> (snd <$> CloseAndMakeIterable 0x10 m)) = Some [(0x7000, top, 16)] /\
  ~ (forall (m : Memory) (this heap : Z) (info : LinearAllocationArea),
       heap_ m !! this = Some heap ->
       allocation_info_ m !! this = Some info ->
       is_size_t (start_ info) -> is_size_t (top_ info) -> is_size_t (limit_ info) ->
       start_ info <= top_ info <= limit_ info ->
       IsValid this m = Some (true, m) ->
       exists m',
         CloseAndMakeIterable this m = Some (info, m') /\
         fillers m' = fillers m ++ [(heap, top_ info, limit_ info - top_ info)]).
Proof.
  intros top limit m.
  assert (Hclose : CloseAndMakeIterable 0x10 m
                   = Some (mkArea 0x1000 top limit,
                           mkMemory {[ 0x10 := 0x7000 ]}
                             (<[0x10 := null_area]> {[ 0x10 := mkArea 0x1000 top limit ]})
                             [(0x7000, top, 16)])).
  { apply (CloseAndMakeIterable_valid m 0x10 0x7000 (mkArea 0x1000 top limit));
      reflexivity. }
  split; [reflexivity | split].
  - rewrite Hclose. reflexivity.
  - intros Hclaim.
    destruct (Hclaim m 0x10 0x7000 (mkArea 0x1000 top limit)) as (m' & Hrun & Hfill);
      try reflexivity; try (unfold is_size_t; cbn; lia).
    rewrite Hclose in Hrun. inversion Hrun; subst m'.
    cbn in Hfill. discriminate Hfill.
Qed.

Lemma CloseAndMakeIterable_closes_once_witness :
  let m := example_memory 0x1800 0x2000 in
  (heap_ m !! 0x10 = Some 0x7000 /\
   allocation_info_ m !! 0x10 = Some (mkArea 0x1000 0x1800 0x2000) /\
   IsValid 0x10 m = Some (true, m) /\
   0 <= 0x2000 - 0x1800 <= kMaxInt) /\
  exists m',
    CloseAndMakeIterable 0x10 m = Some (mkArea 0x1000 0x1800 0x2000, m') /\
    fillers m' = [(0x7000, 0x1800, 0x800)] /\
    IsValid 0x10 m' = Some (false, m') /\
    CloseAndMakeIterable 0x10 m' = Some (null_area, m').
Proof.
  intros m.
  assert (Hlen : 0 <= 0x2000 - 0x1800 <= kMaxInt) by (unfold kMaxInt; lia).
  split; [repeat split; solve [reflexivity | apply Hlen] |].
  destruct (CloseAndMakeIterable_closes_once m 0x10 0x7000 (mkArea 0x1000 0x1800 0x2000)
              eq_refl eq_refl) as (Hvalid & _ & Hagain).
  destruct (Hvalid eq_refl Hlen) as (m' & Hrun & Hfill & _ & _ & Hinv).
  exists m'. split; [exact Hrun |]. split; [exact Hfill |]. split; [exact Hinv |].
  exact (Hagain _ _ Hrun).
Defined.

(** Moving [other] into a different object [this]. *)
Lemma operator_assign_distinct m this other heap info :
  this <> other ->
  heap_ m !! other = Some heap ->
  allocation_info_ m !! other = Some info ->
  operator_assign this other m
  = Some (this,
          mkMemory (<[this := heap]> (heap_ m))
            (<[other := null_area]> (<[this := info]> (allocation_info_ m)))
            (fillers m)).
Proof.
  intros Hne Hheap Hinfo. unfold_LAB.
  rewrite Hheap. cbn. rewrite Hinfo. cbn.
  rewrite lookup_insert_ne by exact Hne. rewrite Hinfo. reflexivity.
Qed.

(** Moving an object into itself leaves it with a null area. *)
Lemma operator_assign_self m this heap info :
  heap_ m !! this = Some heap ->
  allocation_info_ m !! this = Some info ->
  exists m',
    operator_assign this this m = Some (this, m') /\
    allocation_info_ m' !! this = Some null_area /\
    fillers m' = fillers m.
Proof.
  intros Hheap Hinfo. unfold_LAB.
  rewrite Hheap. cbn. rewrite Hinfo. cbn.
  rewrite lookup_insert_eq.
  eexists. split; [reflexivity |]. cbn.
  split; [apply lookup_insert_eq | reflexivity].
Qed.

(** C7. After move-constructing or move-assigning buffer [A] into a
    buffer [B], [B] holds exactly the heap reference and the area [A] held
    before, [A]'s area is null ([A] is invalid), and the move writes no
    filler object. *)
Theorem move_transfers_area (m : Memory) (A B heap : Z) (info : LinearAllocationArea) :
  A <> B ->
  heap_ m !! A = Some heap ->
  allocation_info_ m !! A = Some info ->
  exists m',
    operator_assign B A m = Some (B, m') /\
    LocalAllocationBuffer_move B A m = Some (tt, m') /\
    heap_ m' !! B = Some heap /\
    allocation_info_ m' !! B = Some info /\
    allocation_info_ m' !! A = Some null_area /\
    IsValid A m' = Some (false, m') /\
    fillers m' = fillers m.
Proof.
  intros Hne Hheap Hinfo.
  assert (HBA : B <> A) by congruence.
  pose proof (operator_assign_distinct m B A heap info HBA Hheap Hinfo) as Hassign.
  eexists. split; [exact Hassign |].
  split; [unfold LocalAllocationBuffer_move, bind at 1; rewrite Hassign; reflexivity |].
  cbn.
  split; [apply lookup_insert_eq |].
  split; [rewrite lookup_insert_ne by exact Hne; apply lookup_insert_eq |].
  split; [apply lookup_insert_eq |].
  split; [| reflexivity].
  erewrite IsValid_lookup by (cbn; apply lookup_insert_eq). reflexivity.
Qed.

Lemma move_transfers_area_witness :
  let m := example_memory 0x1800 0x2000 in
  (0x10 <> 0x20 /\
   heap_ m !! 0x10 = Some 0x7000 /\
   allocation_info_ m !! 0x10 = Some (mkArea 0x1000 0x1800 0x2000)) /\
  exists m',
    LocalAllocationBuffer_move 0x20 0x10 m = Some (tt, m') /\
    heap_ m' !! 0x20 = Some 0x7000 /\
    allocation_info_ m' !! 0x20 = Some (mkArea 0x1000 0x1800 0x2000) /\
    allocation_info_ m' !! 0x10 = Some null_area /\
    fillers m' = [].
Proof.
  intros m.
  assert (Hne : 0x10 <> 0x20) by lia.
  split; [split; [exact Hne | split; reflexivity] |].
  destruct (move_transfers_area m 0x10 0x20 0x7000 (mkArea 0x1000 0x1800 0x2000)
              Hne eq_refl eq_refl)
    as (m' & _ & Hmove & Hheap & HB & HA & _ & Hfill).
  exists m'.
  split; [exact Hmove |]. split; [exact Hheap |]. split; [exact HB |].
  split; [exact HA | exact Hfill].
Defined.

(** ** SpaceIterator *)

Import SpaceIterator.

Section SpaceIteratorProperties.
Context `{Build} {Space : Type}.
Implicit Types (it : SpaceIterator Space) (heap : gmap Z Space).

(** One turn of the [while] loop of [HasNext]. *)
Lemma HasNext_step it :
  HasNext it =
  if Z_le_dec (current_space_ it) LAST_MUTABLE_SPACE then
    match heap_ it !! current_space_ it with
    | Some _ => (true, it)
    | None => HasNext {| heap_ := heap_ it; current_space_ := current_space_ it + 1 |}
    end
  else (false, it).
Proof.
  funelim (HasNext it); rewrite ?Heq0; cbn; rewrite ?Heq; reflexivity.
Qed.

(** What [HasNext] returns and where it leaves the cursor: on the first
    non-null slot at or after the cursor when there is one in range, and
    otherwise past the range (or where it was, if it was already past). *)
Lemma HasNext_spec it b it' :
  HasNext it = (b, it') ->
  heap_ it' = heap_ it /\
  current_space_ it <= current_space_ it' /\
  (forall i, current_space_ it <= i < current_space_ it' -> heap_ it !! i = None) /\
  (b = true ->
   current_space_ it' <= LAST_MUTABLE_SPACE /\
   is_Some (heap_ it !! current_space_ it')) /\
  (b = false ->
   current_space_ it' = Z.max (current_space_ it) (LAST_MUTABLE_SPACE + 1)) /\
  HasNext it' = (b, it').
Proof.
  remember (Z.to_nat (LAST_MUTABLE_SPACE + 1 - current_space_ it)) as n eqn:Hn.
  revert it Hn. induction n as [| n IH]; intros it Hn Hrun.
  - rewrite HasNext_step in Hrun.
    destruct (Z_le_dec _ _) as [Hle | Hgt]; [lia |].
    inversion Hrun; subst b it'.
    repeat split; try lia; try discriminate.
    rewrite HasNext_step. destruct (Z_le_dec _ _); [lia | reflexivity].
  - pose proof Hrun as Hrun'. rewrite HasNext_step in Hrun.
    destruct (Z_le_dec _ _) as [Hle | Hgt]; [| lia].
    destruct (heap_ it !! current_space_ it) as [s |] eqn:Hslot.
    + inversion Hrun; subst b it'.
      repeat split; try lia; try discriminate; eauto.
    + apply IH in Hrun; [| cbn; lia]. cbn in Hrun.
      destruct Hrun as (Hheap & Hcur & Hnull & Htrue & Hfalse & Hagain).
      split; [exact Hheap |]. split; [lia |].
      split; [| split; [exact Htrue | split; [intros Hb; rewrite (Hfalse Hb); lia | exact Hagain]]].
      intros i Hi.
      destruct (Z.eq_dec i (current_space_ it)) as [-> | Hne]; [exact Hslot |].
      apply Hnull. lia.
Qed.

(** [Next] right after a [HasNext] that returned true. *)
Lemma Next_after_HasNext it s :
  current_space_ it <= LAST_MUTABLE_SPACE ->
  heap_ it !! current_space_ it = Some s ->
  Next it = Some (Some s, {| heap_ := heap_ it; current_space_ := current_space_ it + 1 |}).
Proof.
  intros Hle Hslot. unfold Next, bind, gets, modify, ret, DCHECK. cbn.
  replace (current_space_ it <=? LAST_MUTABLE_SPACE) with true
    by (symmetry; apply Z.leb_le; exact Hle).
  rewrite andb_false_r, Hslot. cbn. rewrite andb_false_r. reflexivity.
Qed.

(** [Next] moves the cursor one slot forward and keeps the heap. *)
Lemma Next_returns it space it' :
  Next it = Some (space, it') ->
  heap_ it' = heap_ it /\ current_space_ it' = current_space_ it + 1 /\
  space = heap_ it !! current_space_ it.
Proof.
  unfold Next, bind, gets, modify, ret, DCHECK. cbn. intros Hrun.
  destruct (DEBUG && negb (current_space_ it <=? LAST_MUTABLE_SPACE)); [discriminate |].
  cbn in Hrun.
  destruct (DEBUG && negb (bool_decide (is_Some (heap_ it !! current_space_ it))));
    [discriminate |].
  inversion Hrun; subst. auto.
Qed.

(** Every state an iterator goes through reads the heap it was built for
    and has its cursor at or after the first mutable space. *)
Lemma reachable_invariant heap it :
  reachable heap it ->
  heap_ it = heap /\ FIRST_MUTABLE_SPACE <= current_space_ it.
Proof.
  induction 1 as [| it Hreach [IHheap IHcur] | it space it' Hreach [IHheap IHcur] Hnext].
  - cbn. split; [reflexivity | lia].
  - destruct (HasNext it) as [b it'] eqn:Hrun.
    apply HasNext_spec in Hrun as (Hheap & Hcur & _). cbn.
    split; [congruence | lia].
  - apply Next_returns in Hnext as (Hheap & Hcur & _).
    split; [congruence | lia].
Qed.

(** Skipping a run of slots that fail [P]. *)
Lemma filter_seqZ_skip (P : Z -> Prop) `{!forall i, Decision (P i)} a b n :
  a <= b ->
  (forall i, a <= i < b -> ~ P i) ->
  filter P (seqZ a n) = filter P (seqZ b (n - (b - a))).
Proof.
  intros Hab.
  remember (Z.to_nat (b - a)) as k eqn:Hk.
  revert a n Hab Hk. induction k as [| k IH]; intros a n Hab Hk Hskip.
  - replace b with a by lia. f_equal. f_equal. lia.
  - destruct (Z_le_dec n 0) as [Hn | Hn].
    + rewrite !seqZ_nil by lia. reflexivity.
    + rewrite seqZ_cons by lia.
      rewrite filter_cons_False by (apply Hskip; lia).
      rewrite (IH (Z.succ a) (Z.pred n)); [f_equal; f_equal; lia | lia | lia |].
      intros i Hi. apply Hskip. lia.
Qed.

(** The ids kept from a range of consecutive ids are in ascending order. *)
Lemma filter_seqZ_sorted (P : Z -> Prop) `{!forall i, Decision (P i)} a n :
  StronglySorted Z.lt (filter P (seqZ a n)).
Proof.
  remember (Z.to_nat n) as k eqn:Hk.
  revert a n Hk. induction k as [| k IH]; intros a n Hk.
  - rewrite seqZ_nil by lia. constructor.
  - rewrite seqZ_cons by lia. rewrite filter_cons.
    destruct (decide (P a)); [| apply IH; lia].
    constructor; [apply IH; lia |].
    apply Forall_forall. intros i Hi.
    apply list_elem_of_filter in Hi as [_ Hi].
    apply elem_of_seqZ in Hi. lia.
Qed.

(** The protocol [while (HasNext()) Next()] from any state: with enough
    fuel it returns the non-null slots from the cursor to the last mutable
    space, in order, and ends in a state where [HasNext] is false. *)
Lemma iterate_spec fuel it :
  (Z.to_nat (LAST_MUTABLE_SPACE + 1 - current_space_ it) < fuel)%nat ->
  exists it',
    iterate fuel it
    = Some ((fun i => heap_ it !! i) <$>
              filter (fun i => is_Some (heap_ it !! i))
                (seqZ (current_space_ it) (LAST_MUTABLE_SPACE + 1 - current_space_ it)),
            it') /\
    heap_ it' = heap_ it /\
    HasNext it' = (false, it').
Proof.
  revert it. induction fuel as [| fuel IH]; intros it Hfuel; [lia |].
  cbn [iterate].
  destruct (HasNext it) as [b it1] eqn:Hrun.
  apply HasNext_spec in Hrun as (Hheap & Hcur & Hnull & Htrue & Hfalse & Hagain).
  rewrite (filter_seqZ_skip _ (current_space_ it) (current_space_ it1))
    by (try lia; intros i Hi [s Hs]; rewrite (Hnull i Hi) in Hs; discriminate).
  destruct b.
  - destruct (Htrue eq_refl) as [Hle [s Hslot]].
    rewrite (Next_after_HasNext it1 s) by (rewrite ?Hheap; assumption).
    set (it2 := {| heap_ := heap_ it1; current_space_ := current_space_ it1 + 1 |}).
    destruct (IH it2) as (it' & Hiter & Hheap' & Hend);
      [subst it2; cbn [current_space_]; lia |].
    rewrite Hiter. exists it'.
    split; [| split; [cbn in Hheap'; congruence | exact Hend]].
    rewrite (seqZ_cons (current_space_ it1)) by lia.
    rewrite filter_cons_True by (rewrite Hslot; eauto).
    cbn [fmap list_fmap]. rewrite Hslot. cbn [heap_ current_space_ it2]. rewrite Hheap.
    replace (Z.succ (current_space_ it1)) with (current_space_ it1 + 1) by lia.
    replace (Z.pred _) with (LAST_MUTABLE_SPACE + 1 - (current_space_ it1 + 1)) by lia.
    reflexivity.
  - exists it1. rewrite seqZ_nil by (rewrite (Hfalse eq_refl); lia).
    split; [reflexivity | split; [exact Hheap | exact Hagain]].
Qed.

End SpaceIteratorProperties.

(** C8. For every heap, iterating a fresh [SpaceIterator] by the protocol
    (while [HasNext()] do [Next()]) yields exactly the non-null spaces of
    the slots [FIRST_MUTABLE_SPACE .. LAST_MUTABLE_SPACE], each once, in
    ascending id order, after which [HasNext()] is false; with the range
    [[0, 7]] and spaces at 2, 5 and 7 it yields 2, 5, 7. *)
Theorem SpaceIterator_enumerates_spaces :
  (forall (B : Build) (Space : Type) (heap : gmap Z Space) (fuel : nat),
     let ids := filter (fun i => is_Some (heap !! i))
                  (seqZ FIRST_MUTABLE_SPACE
                     (LAST_MUTABLE_SPACE + 1 - FIRST_MUTABLE_SPACE)) in
     (Z.to_nat (LAST_MUTABLE_SPACE + 1 - FIRST_MUTABLE_SPACE) < fuel)%nat ->
     exists it',
       iterate fuel (new heap) = Some ((fun i => heap !! i) <$> ids, it') /\
       HasNext it' = (false, it') /\
       StronglySorted Z.lt ids /\
       (forall i, i ∈ ids <->
                  FIRST_MUTABLE_SPACE <= i <= LAST_MUTABLE_SPACE /\ is_Some (heap !! i))) /\
  (forall (debug : bool) (bits : nat),
     let B := {| DEBUG := debug; kObjectAlignmentBits := bits;
                 FIRST_MUTABLE_SPACE := 0; LAST_MUTABLE_SPACE := 7 |} in
     exists it',
       iterate 9 (new example_heap) = Some ([Some 2; Some 5; Some 7], it') /\
       HasNext it' = (false, it')).
Proof.
  assert (Hgeneral :
    forall (B : Build) (Space : Type) (heap : gmap Z Space) (fuel : nat),
      (Z.to_nat (LAST_MUTABLE_SPACE + 1 - FIRST_MUTABLE_SPACE) < fuel)%nat ->
      exists it',
        iterate fuel (new heap)
        = Some ((fun i => heap !! i) <$>
                  filter (fun i => is_Some (heap !! i))
                    (seqZ FIRST_MUTABLE_SPACE
                       (LAST_MUTABLE_SPACE + 1 - FIRST_MUTABLE_SPACE)), it') /\
        HasNext it' = (false, it')).
  { intros B Space heap fuel Hfuel.
    destruct (iterate_spec fuel (new heap) Hfuel) as (it' & Hiter & _ & Hend).
    exists it'. split; [exact Hiter | exact Hend]. }
  split.
  - intros B Space heap fuel ids Hfuel.
    destruct (Hgeneral B Space heap fuel Hfuel) as (it' & Hiter & Hend).
    exists it'. split; [exact Hiter |]. split; [exact Hend |].
    split; [apply filter_seqZ_sorted |].
    intros i. unfold ids. rewrite list_elem_of_filter, elem_of_seqZ.
    split; intros [? ?]; split; try assumption; lia.
  - intros debug bits B.
    destruct (Hgeneral B Z example_heap 9%nat) as (it' & Hiter & Hend); [cbn; lia |].
    exists it'. split; [| exact Hend].
    rewrite Hiter. reflexivity.
Qed.

Lemma SpaceIterator_enumerates_spaces_witness :
  let B := example_build true in
  (Z.to_nat (LAST_MUTABLE_SPACE + 1 - FIRST_MUTABLE_SPACE) < 9)%nat /\
  exists it',
    iterate 9 (new example_heap) = Some ([Some 2; Some 5; Some 7], it') /\
    HasNext it' = (false, it') /\
    iterate 1 it' = Some ([], it').
Proof.
  intros B.
  assert (Hfuel : (Z.to_nat (LAST_MUTABLE_SPACE + 1 - FIRST_MUTABLE_SPACE) < 9)%nat)
    by (cbn; lia).
  split; [exact Hfuel |].
  destruct (proj1 SpaceIterator_enumerates_spaces B Z example_heap 9%nat Hfuel)
    as (it' & Hiter & Hend & _).
  exists it'. split; [exact Hiter |]. split; [exact Hend |].
  cbn [iterate]. rewrite Hend. reflexivity.
Defined.

(** C9. For every state of a [SpaceIterator], [HasNext()] returns true iff
    some non-null space exists at an id at or after the cursor and within
    [[FIRST_MUTABLE_SPACE, LAST_MUTABLE_SPACE]]; calling it twice in a row
    gives the same result and the same iterator state as calling it once;
    and its only state change is to advance the cursor past null slots. *)
Theorem HasNext_true_iff_and_idempotent `{Build} {Space : Type}
    (heap : gmap Z Space) (it : SpaceIterator Space) :
  reachable heap it ->
  ((HasNext it).1 = true <->
   exists i, current_space_ it <= i /\
             FIRST_MUTABLE_SPACE <= i <= LAST_MUTABLE_SPACE /\
             is_Some (heap !! i)) /\
  HasNext (HasNext it).2 = HasNext it /\
  heap_ (HasNext it).2 = heap_ it /\
  current_space_ it <= current_space_ (HasNext it).2 /\
  (forall i, current_space_ it <= i < current_space_ (HasNext it).2 -> heap !! i = None).
Proof.
  intros Hreach.
  apply reachable_invariant in Hreach as [<- Hfirst].
  destruct (HasNext it) as [b it'] eqn:Hrun.
  apply HasNext_spec in Hrun as (Hheap & Hcur & Hnull & Htrue & Hfalse & Hagain).
  cbn [fst snd].
  split; [| split; [exact Hagain | split; [exact Hheap | split; [exact Hcur | exact Hnull]]]].
  split.
  - intros Hb. destruct (Htrue Hb) as [Hle Hsome].
    exists (current_space_ it'). split; [exact Hcur |]. split; [lia | exact Hsome].
  - intros (i & Hi & Hrange & Hsome).
    destruct b; [reflexivity |].
    specialize (Hfalse eq_refl).
    rewrite (Hnull i) in Hsome by lia.
    destruct Hsome as [s Hs]. discriminate Hs.
Qed.

Lemma HasNext_true_iff_and_idempotent_witness :
  let B := example_build true in
  let it := new example_heap in
  reachable example_heap it /\
  HasNext it = (true, {| heap_ := example_heap; current_space_ := 2 |}) /\
  HasNext (HasNext it).2 = HasNext it.
Proof.
  intros B it.
  assert (Hreach : reachable example_heap it) by apply reachable_new.
  split; [exact Hreach |]. split; [reflexivity |].
  exact (proj1 (proj2 (HasNext_true_iff_and_idempotent example_heap it Hreach))).
Defined.

(** * Further properties of the code *)

(** ** ComputeLimit *)

(** A release build has no assertion to stop at. *)
Lemma ComputeLimit_release_defined `{Build} s start end_ min_size :
  DEBUG = false -> is_Some (ComputeLimit start end_ min_size s).
Proof.
  intros Hrelease. unfold ComputeLimit. unfold_M. rewrite Hrelease.
  destruct s as [gc inl act sup info nb stress]; cbn.
  destruct gc; [eauto |]. destruct inl; cbn; [| eauto].
  destruct sup, act; cbn; eauto.
Qed.

(** A debug build that returns has passed every assertion on its way. *)
Lemma ComputeLimit_some_dchecks `{Build} s start end_ min_size r s' :
  ComputeLimit start end_ min_size s = Some (r, s') ->
  DEBUG = true ->
  min_size <= to_size_t (end_ - start) /\ observer_dchecks_hold s.
Proof.
  unfold ComputeLimit, observer_dchecks_hold. unfold_M. intros Hrun Hdebug.
  rewrite Hdebug in Hrun.
  destruct s as [gc inl act sup info nb stress]; cbn in *.
  destruct (min_size <=? to_size_t (end_ - start)) eqn:Hfit; [| discriminate Hrun].
  apply Z.leb_le in Hfit. split; [exact Hfit |].
  intros -> -> -> ->. cbn in Hrun.
  destruct (start_ info =? top_ info) eqn:Htop; [| discriminate Hrun].
  cbn in Hrun.
  destruct (nb =? 0) eqn:Hnb; [discriminate Hrun |].
  split; [apply Z.eqb_eq; exact Htop | apply Z.eqb_neq; exact Hnb].
Qed.

(** The returned limit without the outer wrap-around, for arguments that
    satisfy the entry condition. *)
Lemma ComputeLimit_value `{Build} s start end_ min_size r s' :
  is_size_t start -> is_size_t end_ -> is_size_t min_size ->
  min_size <= end_ - start ->
  ComputeLimit start end_ min_size s = Some (r, s') ->
  s' = s /\
  r = if is_in_gc s then end_
      else if negb (inline_allocation_enabled s) then start + min_size
      else
        let rounded_step :=
          to_size_t (RoundSizeDownToObjectAlignment
                       (to_int (to_size_t (next_bytes s - 1)))) in
        let step_size :=
          if supports_allocation_observer s && allocation_observer_active s
          then Z.min (end_ - start) rounded_step
          else end_ - start in
        let step_size := if stress_marking s then Z.min step_size 64 else step_size in
        start + Z.max step_size min_size.
Proof.
  unfold is_size_t. intros Hs He Hm Hfit Hrun.
  apply ComputeLimit_returns in Hrun as [-> ->]. split; [reflexivity |].
  rewrite (to_size_t_id (end_ - start)) by lia.
  change (to_size_t 64) with 64.
  pose proof (to_size_t_range
    (RoundSizeDownToObjectAlignment (to_int (to_size_t (next_bytes s - 1))))) as HR.
  destruct (is_in_gc s); [reflexivity |].
  destruct (inline_allocation_enabled s); cbn [negb];
    [| apply to_size_t_id; lia].
  cbv zeta.
  destruct (supports_allocation_observer s && allocation_observer_active s);
    destruct (stress_marking s); apply to_size_t_id; lia.
Qed.

(** X1. Outside GC, with inline allocation enabled, no observer consulted
    and the stress flag off, the whole region is handed out:
    [ComputeLimit(start, end, min_size)] is [end]. *)
Theorem ComputeLimit_full_region `{Build} s start end_ min_size :
  is_size_t start -> is_size_t end_ -> is_size_t min_size ->
  min_size <= end_ - start ->
  is_in_gc s = false ->
  inline_allocation_enabled s = true ->
  supports_allocation_observer s && allocation_observer_active s = false ->
  stress_marking s = false ->
  ComputeLimit start end_ min_size s = Some (end_, s).
Proof.
  intros Hs He Hm Hfit Hgc Hinl Hobs Hstress.
  destruct (ComputeLimit_defined s start end_ min_size Hs He Hm Hfit) as [[r s'] Hrun].
  { intros _ _ _ Hsup Hact. rewrite Hsup, Hact in Hobs. discriminate Hobs. }
  rewrite Hrun.
  apply ComputeLimit_value in Hrun as [-> ->]; try assumption.
  rewrite Hgc, Hinl, Hobs, Hstress. cbn. do 2 f_equal. lia.
Qed.

Lemma ComputeLimit_full_region_witness :
  let B := example_build true in
  let s := mkSpaceState false true false true (mkArea 0x1000 0x1800 0x2000) 0 false in
  (is_size_t 0x1000 /\ is_size_t 0x2000 /\ is_size_t 0x10 /\
   0x10 <= 0x2000 - 0x1000) /\
  @ComputeLimit B 0x1000 0x2000 0x10 s = Some (0x2000, s).
Proof.
  intros B s.
  assert (Hsz : is_size_t 0x1000 /\ is_size_t 0x2000 /\ is_size_t 0x10).
  { unfold is_size_t. lia. }
  split; [repeat split; solve [apply Hsz | lia] |].
  apply (@ComputeLimit_full_region B s 0x1000 0x2000 0x10);
    solve [apply Hsz | lia | reflexivity].
Defined.

(** X2. When [ComputeLimit] does not return: never in a release build, and
    in a debug build exactly when the caller breaks the entry condition
    ([min_size > end - start]) or, on the observer branch, has unaccounted
    allocations ([start != top]) or a zero [NextBytes()].  The assertion
    before the return never fires for [start <= end]. *)
Theorem ComputeLimit_aborts_iff `{Build} s start end_ min_size :
  is_size_t start -> is_size_t end_ -> is_size_t min_size ->
  start <= end_ ->
  ComputeLimit start end_ min_size s = None <->
  DEBUG = true /\
  (end_ - start < min_size \/
   (is_in_gc s = false /\ inline_allocation_enabled s = true /\
    supports_allocation_observer s = true /\ allocation_observer_active s = true /\
    (start_ (allocation_info s) <> top_ (allocation_info s) \/ next_bytes s = 0))).
Proof.
  intros Hs He Hm Hle. split.
  - intros Hnone.
    destruct DEBUG eqn:Hdebug.
    2:{ destruct (ComputeLimit_release_defined s start end_ min_size Hdebug) as [x Hx].
        congruence. }
    split; [reflexivity |].
    destruct (Z_lt_dec (end_ - start) min_size) as [Hlt | Hfit]; [left; exact Hlt | right].
    destruct (is_in_gc s) eqn:Hgc, (inline_allocation_enabled s) eqn:Hinl,
      (supports_allocation_observer s) eqn:Hsup, (allocation_observer_active s) eqn:Hact,
      (Z.eq_dec (start_ (allocation_info s)) (top_ (allocation_info s))) as [Htop | Htop],
      (Z.eq_dec (next_bytes s) 0) as [Hnb | Hnb];
      try (repeat split; solve [reflexivity | left; assumption | right; assumption]).
    all: exfalso;
      destruct (ComputeLimit_defined s start end_ min_size Hs He Hm ltac:(lia)) as [x Hx];
      [ intros _; unfold observer_dchecks_hold; rewrite ?Hgc, ?Hinl, ?Hsup, ?Hact;
        intros; try discriminate; split; assumption
      | congruence ].
  - intros [Hdebug Hbad].
    destruct (ComputeLimit start end_ min_size s) as [[r s'] |] eqn:Hrun; [| reflexivity].
    exfalso.
    destruct (ComputeLimit_some_dchecks _ _ _ _ _ _ Hrun Hdebug) as [Hfit Hobs].
    unfold is_size_t in *. rewrite to_size_t_id in Hfit by lia.
    destruct Hbad as [Hlt | (Hgc & Hinl & Hsup & Hact & Hbad)]; [lia |].
    destruct (Hobs Hgc Hinl Hsup Hact) as [Htop Hnb].
    destruct Hbad; contradiction.
Qed.

Lemma ComputeLimit_aborts_iff_witness :
  let B := example_build true in
  let s := example_space false true false 0 in
  (is_size_t 0x1000 /\ is_size_t 0x2000 /\ is_size_t 0x10 /\ 0x1000 <= 0x2000) /\
  @ComputeLimit B 0x1000 0x2000 0x10 s = None.
Proof.
  intros B s.
  assert (Hsz : is_size_t 0x1000 /\ is_size_t 0x2000 /\ is_size_t 0x10).
  { unfold is_size_t. lia. }
  split; [repeat split; solve [apply Hsz | lia] |].
  apply (@ComputeLimit_aborts_iff B s 0x1000 0x2000 0x10);
    [apply Hsz | apply Hsz | apply Hsz | lia |].
  split; [reflexivity |]. right.
  split; [reflexivity |]. split; [reflexivity |].
  split; [reflexivity |]. split; [reflexivity |].
  right. reflexivity.
Defined.

(** X3. The stress flag only lowers the limit: if [ComputeLimit] returns
    with the flag off, it also returns with the flag on, and the limit it
    returns then is no greater. *)
Theorem ComputeLimit_stress_marking_only_lowers `{Build} s start end_ min_size r0 :
  is_size_t start -> is_size_t end_ -> is_size_t min_size ->
  min_size <= end_ - start ->
  ComputeLimit start end_ min_size (with_stress_marking false s)
  = Some (r0, with_stress_marking false s) ->
  exists r1,
    ComputeLimit start end_ min_size (with_stress_marking true s)
    = Some (r1, with_stress_marking true s) /\
    r1 <= r0.
Proof.
  intros Hs He Hm Hfit Hoff.
  destruct (ComputeLimit_defined (with_stress_marking true s) start end_ min_size
              Hs He Hm Hfit) as [[r1 s1] Hon].
  { intros Hdebug.
    exact (proj2 (ComputeLimit_some_dchecks _ _ _ _ _ _ Hoff Hdebug)). }
  pose proof (ComputeLimit_value _ _ _ _ _ _ Hs He Hm Hfit Hon) as [-> Hr1].
  pose proof (ComputeLimit_value _ _ _ _ _ _ Hs He Hm Hfit Hoff) as [_ Hr0].
  exists r1. split; [exact Hon |].
  cbn in Hr0, Hr1. subst r0 r1.
  destruct (is_in_gc s); [lia |].
  destruct (inline_allocation_enabled s); cbn [negb]; [| lia].
  destruct (supports_allocation_observer s && allocation_observer_active s); lia.
Qed.

Lemma ComputeLimit_stress_marking_only_lowers_witness :
  let B := example_build true in
  let s := example_space false true false 1000 in
  (is_size_t 0x1000 /\ is_size_t 0x2000 /\ is_size_t 0x10 /\
   0x10 <= 0x2000 - 0x1000 /\
   @ComputeLimit B 0x1000 0x2000 0x10 (with_stress_marking false s)
   = Some (0x13e0, with_stress_marking false s)) /\
  exists r1,
    @ComputeLimit B 0x1000 0x2000 0x10 (with_stress_marking true s)
    = Some (r1, with_stress_marking true s) /\
    r1 <= 0x13e0.
Proof.
  intros B s.
  assert (Hsz : is_size_t 0x1000 /\ is_size_t 0x2000 /\ is_size_t 0x10).
  { unfold is_size_t. lia. }
  split; [repeat split; solve [apply Hsz | lia] |].
  apply (@ComputeLimit_stress_marking_only_lowers B s 0x1000 0x2000 0x10 0x13e0);
    solve [apply Hsz | lia | reflexivity].
Defined.

(** X4. With an observer consulted and a distance [k] to the next sample
    that fits in [int], the limit stays below the sample boundary
    [start + k] unless [min_size] itself reaches it: the returned limit is
    at most [start + max(min_size, k - 1)], with the stress flag on or off. *)
Theorem ComputeLimit_below_sample_boundary `{Build} s start end_ min_size k :
  is_size_t start -> is_size_t end_ -> is_size_t min_size ->
  min_size <= end_ - start ->
  is_in_gc s = false ->
  inline_allocation_enabled s = true ->
  supports_allocation_observer s = true ->
  allocation_observer_active s = true ->
  next_bytes s = k ->
  k <> 0 -> 0 <= k - 1 <= kMaxInt ->
  (forall r s', ComputeLimit start end_ min_size s = Some (r, s') ->
                r <= start + Z.max min_size (k - 1)) /\
  (start_ (allocation_info s) = top_ (allocation_info s) ->
   exists r, ComputeLimit start end_ min_size s = Some (r, s) /\
             r <= start + Z.max min_size (k - 1)).
Proof.
  unfold kMaxInt. intros Hs He Hm Hfit Hgc Hinl Hsup Hact Hk Hk0 Hint.
  assert (Hbound : forall r s', ComputeLimit start end_ min_size s = Some (r, s') ->
                                r <= start + Z.max min_size (k - 1)).
  { intros r s' Hrun.
    apply ComputeLimit_value in Hrun as [_ ->]; try assumption.
    rewrite Hgc, Hinl, Hsup, Hact, Hk. cbn [negb andb]. cbv zeta.
    rewrite rounded_step_exact by lia.
    pose proof (RoundSizeDownToObjectAlignment_le (k - 1)).
    destruct (stress_marking s); lia. }
  split; [exact Hbound |].
  intros Htop.
  destruct (ComputeLimit_defined s start end_ min_size Hs He Hm Hfit) as [[r s'] Hrun].
  { intros _ _ _ _ _. split; [exact Htop | congruence]. }
  pose proof (ComputeLimit_returns _ _ _ _ _ _ Hrun) as [-> _].
  exists r. split; [exact Hrun | exact (Hbound _ _ Hrun)].
Qed.

Lemma ComputeLimit_below_sample_boundary_witness :
  let B := example_build true in
  let s := example_space false true true 40 in
  (is_size_t 0x1000 /\ is_size_t 0x2000 /\ is_size_t 0x10 /\
   0x10 <= 0x2000 - 0x1000 /\ 40 <> 0 /\ 0 <= 40 - 1 <= kMaxInt) /\
  exists r, @ComputeLimit B 0x1000 0x2000 0x10 s = Some (r, s) /\
            r <= 0x1000 + Z.max 0x10 (40 - 1).
Proof.
  intros B s.
  assert (Hsz : is_size_t 0x1000 /\ is_size_t 0x2000 /\ is_size_t 0x10).
  { unfold is_size_t. lia. }
  assert (Hint : 0 <= 40 - 1 <= kMaxInt) by (unfold kMaxInt; lia).
  split; [repeat split; solve [apply Hsz | lia | apply Hint] |].
  apply (@ComputeLimit_below_sample_boundary B s 0x1000 0x2000 0x10 40);
    solve [apply Hsz | lia | reflexivity | exact Hint].
Defined.

(** X5. Recomputing the limit of an already limited region changes
    nothing: if [ComputeLimit(start, end, min_size)] returns [r], then
    [ComputeLimit(start, r, min_size)] returns [r] as well. *)
Theorem ComputeLimit_idempotent_in_end `{Build} s start end_ min_size r s' :
  is_size_t start -> is_size_t end_ -> is_size_t min_size ->
  min_size <= end_ - start ->
  ComputeLimit start end_ min_size s = Some (r, s') ->
  ComputeLimit start r min_size s = Some (r, s).
Proof.
  intros Hs He Hm Hfit Hrun.
  destruct (ComputeLimit_value_bounds s start end_ min_size r s' Hs He Hm Hfit Hrun)
    as [Hr _].
  assert (Hr' : is_size_t r) by (unfold is_size_t in *; lia).
  assert (Hfit' : min_size <= r - start) by lia.
  destruct (ComputeLimit_defined s start r min_size Hs Hr' Hm Hfit') as [[r2 s2] Hrun2].
  { intros Hdebug.
    exact (proj2 (ComputeLimit_some_dchecks _ _ _ _ _ _ Hrun Hdebug)). }
  rewrite Hrun2.
  apply ComputeLimit_value in Hrun as [_ Hval]; try assumption.
  apply ComputeLimit_value in Hrun2 as [-> Hval2]; try assumption.
  do 2 f_equal. rewrite Hval2. clear Hval2. cbv zeta in *.
  destruct (is_in_gc s); [reflexivity |].
  destruct (inline_allocation_enabled s); cbn [negb] in *; [| exact (eq_sym Hval)].
  destruct (supports_allocation_observer s && allocation_observer_active s);
    destruct (stress_marking s); lia.
Qed.

Lemma ComputeLimit_idempotent_in_end_witness :
  let B := example_build true in
  let s := example_space false true false 100 in
  (is_size_t 0x1000 /\ is_size_t 0x2000 /\ is_size_t 0x10 /\
   0x10 <= 0x2000 - 0x1000 /\
   @ComputeLimit B 0x1000 0x2000 0x10 s = Some (0x1060, s)) /\
  @ComputeLimit B 0x1000 0x1060 0x10 s = Some (0x1060, s).
Proof.
  intros B s.
  assert (Hsz : is_size_t 0x1000 /\ is_size_t 0x2000 /\ is_size_t 0x10).
  { unfold is_size_t. lia. }
  split; [repeat split; solve [apply Hsz | lia] |].
  apply (@ComputeLimit_idempotent_in_end B s 0x1000 0x2000 0x10 0x1060 s);
    solve [apply Hsz | lia | reflexivity].
Defined.

(** X6. The limit is monotone in the region and in the request: a later
    [end] and a larger [min_size] never give a smaller limit. *)
Theorem ComputeLimit_monotone `{Build} s start end1 end2 min1 min2 r1 r2 s1 s2 :
  is_size_t start -> is_size_t end1 -> is_size_t end2 ->
  is_size_t min1 -> is_size_t min2 ->
  end1 <= end2 -> min1 <= min2 ->
  min1 <= end1 - start -> min2 <= end2 - start ->
  ComputeLimit start end1 min1 s = Some (r1, s1) ->
  ComputeLimit start end2 min2 s = Some (r2, s2) ->
  r1 <= r2.
Proof.
  intros Hs He1 He2 Hm1 Hm2 Hend Hmin Hfit1 Hfit2 Hrun1 Hrun2.
  apply ComputeLimit_value in Hrun1 as [_ ->]; try assumption.
  apply ComputeLimit_value in Hrun2 as [_ ->]; try assumption.
  cbv zeta.
  destruct (is_in_gc s); [exact Hend |].
  destruct (inline_allocation_enabled s); cbn [negb]; [| lia].
  destruct (supports_allocation_observer s && allocation_observer_active s);
    destruct (stress_marking s); lia.
Qed.

Lemma ComputeLimit_monotone_witness :
  let B := example_build true in
  let s := example_space false true false 1000 in
  (is_size_t 0x1000 /\ is_size_t 0x1100 /\ is_size_t 0x2000 /\
   is_size_t 0x10 /\ is_size_t 0x800 /\
   0x1100 <= 0x2000 /\ 0x10 <= 0x800 /\
   0x10 <= 0x1100 - 0x1000 /\ 0x800 <= 0x2000 - 0x1000 /\
   @ComputeLimit B 0x1000 0x1100 0x10 s = Some (0x1100, s) /\
   @ComputeLimit B 0x1000 0x2000 0x800 s = Some (0x1800, s)) /\
  0x1100 <= 0x1800.
Proof.
  intros B s.
  assert (Hsz : is_size_t 0x1000 /\ is_size_t 0x1100 /\ is_size_t 0x2000 /\
                is_size_t 0x10 /\ is_size_t 0x800).
  { unfold is_size_t. lia. }
  split; [repeat split; solve [apply Hsz | lia] |].
  apply (@ComputeLimit_monotone B s 0x1000 0x1100 0x2000 0x10 0x800 0x1100 0x1800 s s);
    solve [apply Hsz | lia | reflexivity].
Defined.

(** Rounding a negative [int] down stays within [int] and negative, for an
    alignment that divides [2^31]. *)
Lemma RoundSizeDownToObjectAlignment_negative `{Build} x :
  (kObjectAlignmentBits <= 31)%nat ->
  - 2 ^ 31 <= x < 0 ->
  - 2 ^ 31 <= RoundSizeDownToObjectAlignment x < 0.
Proof.
  intros Hbits Hx.
  pose proof (RoundSizeDownToObjectAlignment_le x) as Hle.
  split; [| lia].
  pose proof kObjectAlignment_pos as Hpos.
  unfold RoundSizeDownToObjectAlignment.
  assert (Hdiv : 2 ^ 31 = 2 ^ (31 - Z.of_nat kObjectAlignmentBits) * kObjectAlignment).
  { unfold kObjectAlignment. rewrite <- Z.pow_add_r by lia. f_equal. lia. }
  set (q := 2 ^ (31 - Z.of_nat kObjectAlignmentBits)) in *.
  assert (Hnz : kObjectAlignment <> 0) by (clear - Hpos; lia).
  pose proof (Z.div_mod x kObjectAlignment Hnz) as Hdm.
  assert (Hq : - q <= x / kObjectAlignment).
  { apply Z.div_le_lower_bound; [exact Hpos |]. lia. }
  nia.
Qed.

(** X7. A distance to the next sample whose [step - 1] becomes a negative
    [int] (a step above [2^31], or a zero step in a release build) does not
    lower the limit: [ComputeLimit] then returns what it returns when no
    observer is active. *)
Theorem ComputeLimit_negative_step_unclamped `{Build} s start end_ min_size r :
  is_size_t start -> is_size_t end_ -> is_size_t min_size ->
  min_size <= end_ - start ->
  (kObjectAlignmentBits <= 31)%nat ->
  end_ - start <= 2 ^ 64 - 2 ^ 31 ->
  to_int (to_size_t (next_bytes s - 1)) < 0 ->
  ComputeLimit start end_ min_size s = Some (r, s) ->
  ComputeLimit start end_ min_size (with_allocation_observer_active false s)
  = Some (r, with_allocation_observer_active false s).
Proof.
  intros Hs He Hm Hfit Hbits Hregion Hneg Hrun.
  destruct (ComputeLimit_defined (with_allocation_observer_active false s)
              start end_ min_size Hs He Hm Hfit) as [[r' s'] Hpaused].
  { intros _ _ _ _ Hact. discriminate Hact. }
  rewrite Hpaused.
  apply ComputeLimit_value in Hpaused as [-> ->]; try assumption.
  apply ComputeLimit_value in Hrun as [_ ->]; try assumption.
  do 2 f_equal. cbn. rewrite andb_false_r.
  pose proof (to_int_range (to_size_t (next_bytes s - 1))) as Hrange.
  pose proof (RoundSizeDownToObjectAlignment_negative
                (to_int (to_size_t (next_bytes s - 1))) Hbits ltac:(lia)) as Hround.
  set (x := RoundSizeDownToObjectAlignment _) in *.
  assert (Hbig : to_size_t x = x + 2 ^ 64).
  { unfold to_size_t. symmetry. apply (Z.mod_unique _ _ (-1)); lia. }
  rewrite Hbig.
  destruct (is_in_gc s); [reflexivity |].
  destruct (inline_allocation_enabled s); cbn [negb]; [| reflexivity].
  destruct (supports_allocation_observer s); cbn [andb]; [| reflexivity].
  destruct (allocation_observer_active s); [| reflexivity].
  destruct (stress_marking s); lia.
Qed.

Lemma ComputeLimit_negative_step_unclamped_witness :
  let B := example_build true in
  let s := example_space false true false (2 ^ 31 + 1) in
  (is_size_t 0x1000 /\ is_size_t 0x2000 /\ is_size_t 0x10 /\
   0x10 <= 0x2000 - 0x1000 /\
   (kObjectAlignmentBits <= 31)%nat /\
   0x2000 - 0x1000 <= 2 ^ 64 - 2 ^ 31 /\
   to_int (to_size_t (next_bytes s - 1)) < 0 /\
   @ComputeLimit B 0x1000 0x2000 0x10 s = Some (0x2000, s)) /\
  @ComputeLimit B 0x1000 0x2000 0x10 (with_allocation_observer_active false s)
  = Some (0x2000, with_allocation_observer_active false s).
Proof.
  intros B s.
  assert (Hsz : is_size_t 0x1000 /\ is_size_t 0x2000 /\ is_size_t 0x10).
  { unfold is_size_t. lia. }
  assert (Hbits : (kObjectAlignmentBits <= 31)%nat) by (cbn; lia).
  assert (Hneg : to_int (to_size_t (next_bytes s - 1)) < 0) by (vm_compute; reflexivity).
  split; [repeat split; solve [apply Hsz | lia | exact Hbits | exact Hneg | reflexivity ] |].
  apply (@ComputeLimit_negative_step_unclamped B s 0x1000 0x2000 0x10 0x2000);
    solve [apply Hsz | lia | exact Hbits | exact Hneg | reflexivity].
Defined.

(** ** LocalAllocationBuffer *)

Import LocalAllocationBuffer.

(** X8. Constructing a buffer over an area and closing it gives the area
    back and writes one filler over its unused part, from its [top], on the
    heap it was constructed for; a buffer constructed over the null area
    closes to the null area and writes nothing. *)
Theorem construct_then_close (m : Memory) (this heap : Z) (info : LinearAllocationArea) :
  (LocalAllocationBuffer.LocalAllocationBuffer this heap info >>
   CloseAndMakeIterable this) m
  = if is_null info
    then Some (null_area,
               mkMemory (<[this := heap]> (heap_ m))
                 (<[this := info]> (allocation_info_ m)) (fillers m))
    else Some (info,
               mkMemory (<[this := heap]> (heap_ m))
                 (<[this := null_area]> (allocation_info_ m))
                 (fillers m ++
                  [(heap, top_ info, to_int (to_size_t (limit_ info - top_ info)))])).
Proof.
  unfold bind at 1.
  unfold LocalAllocationBuffer.LocalAllocationBuffer, write_heap_, write_allocation_info_,
    bind, modify. cbn.
  set (m1 := mkMemory _ _ _).
  assert (Hheap : heap_ m1 !! this = Some heap) by apply lookup_insert_eq.
  assert (Hinfo : allocation_info_ m1 !! this = Some info) by apply lookup_insert_eq.
  destruct (is_null info) eqn:Hnull.
  - apply (CloseAndMakeIterable_invalid m1 this info Hinfo Hnull).
  - rewrite (CloseAndMakeIterable_valid m1 this heap info Hheap Hinfo Hnull).
    subst m1. cbn. rewrite insert_insert_eq. reflexivity.
Qed.

(** X9. A moved buffer is released once: after moving [A] into [B],
    closing [B] returns the area [A] held and writes its filler on [A]'s
    heap, and closing [A] returns the null area and writes nothing. *)
Theorem move_then_close (m : Memory) (A B heap : Z) (info : LinearAllocationArea) :
  A <> B ->
  heap_ m !! A = Some heap ->
  allocation_info_ m !! A = Some info ->
  is_null info = false ->
  exists m',
    (operator_assign B A >>
     let* b := CloseAndMakeIterable B in
     let* a := CloseAndMakeIterable A in
     ret (b, a)) m = Some ((info, null_area), m') /\
    fillers m'
    = fillers m ++ [(heap, top_ info, to_int (to_size_t (limit_ info - top_ info)))] /\
    allocation_info_ m' !! A = Some null_area /\
    allocation_info_ m' !! B = Some null_area.
Proof.
  intros Hne Hheap Hinfo Hvalid.
  assert (HBA : B <> A) by congruence.
  unfold bind at 1.
  rewrite (operator_assign_distinct m B A heap info HBA Hheap Hinfo).
  set (m1 := mkMemory _ _ _).
  assert (HheapB : heap_ m1 !! B = Some heap) by apply lookup_insert_eq.
  assert (HinfoB : allocation_info_ m1 !! B = Some info).
  { cbn. rewrite lookup_insert_ne by exact Hne. apply lookup_insert_eq. }
  unfold bind at 1.
  rewrite (CloseAndMakeIterable_valid m1 B heap info HheapB HinfoB Hvalid).
  set (m2 := mkMemory _ _ _).
  assert (HinfoA : allocation_info_ m2 !! A = Some null_area).
  { cbn. rewrite lookup_insert_ne by exact HBA. apply lookup_insert_eq. }
  unfold bind at 1.
  rewrite (CloseAndMakeIterable_invalid m2 A null_area HinfoA eq_refl).
  exists m2. split; [reflexivity |]. split; [reflexivity |].
  split; [exact HinfoA | cbn; apply lookup_insert_eq].
Qed.

Lemma move_then_close_witness :
  let m := example_memory 0x1800 0x2000 in
  (0x10 <> 0x20 /\
   heap_ m !! 0x10 = Some 0x7000 /\
   allocation_info_ m !! 0x10 = Some (mkArea 0x1000 0x1800 0x2000) /\
   is_null (mkArea 0x1000 0x1800 0x2000) = false) /\
  exists m',
    (operator_assign 0x20 0x10 >>
     let* b := CloseAndMakeIterable 0x20 in
     let* a := CloseAndMakeIterable 0x10 in
     ret (b, a)) m = Some ((mkArea 0x1000 0x1800 0x2000, null_area), m') /\
    fillers m' = [(0x7000, 0x1800, 0x800)].
Proof.
  intros m.
  assert (Hne : 0x10 <> 0x20) by lia.
  split; [split; [exact Hne | repeat split] |].
  destruct (move_then_close m 0x10 0x20 0x7000 (mkArea 0x1000 0x1800 0x2000)
              Hne eq_refl eq_refl eq_refl) as (m' & Hrun & Hfill & _).
  exists m'. split; [exact Hrun | exact Hfill].
Defined.

(** X10. Moving a buffer into itself drops its area: the buffer ends up
    invalid, no filler is written for the area it held, and closing it
    afterwards writes none either. *)
Theorem self_move_drops_area (m : Memory) (this heap : Z) (info : LinearAllocationArea) :
  heap_ m !! this = Some heap ->
  allocation_info_ m !! this = Some info ->
  let m' := mkMemory (heap_ m) (<[this := null_area]> (allocation_info_ m)) (fillers m) in
  operator_assign this this m = Some (this, m') /\
  IsValid this m' = Some (false, m') /\
  CloseAndMakeIterable this m' = Some (null_area, m').
Proof.
  intros Hheap Hinfo m'.
  assert (Hinfo' : allocation_info_ m' !! this = Some null_area)
    by (cbn; apply lookup_insert_eq).
  split; [| split].
  - unfold_LAB. rewrite Hheap. cbn. rewrite Hinfo. cbn.
    rewrite lookup_insert_eq. unfold m'. cbn.
    rewrite insert_insert_eq, (insert_id (heap_ m) this heap Hheap). reflexivity.
  - rewrite (IsValid_lookup m' this null_area Hinfo'). reflexivity.
  - apply (CloseAndMakeIterable_invalid m' this null_area Hinfo' eq_refl).
Qed.

Lemma self_move_drops_area_witness :
  let m := example_memory 0x1800 0x2000 in
  (heap_ m !! 0x10 = Some 0x7000 /\
   allocation_info_ m !! 0x10 = Some (mkArea 0x1000 0x1800 0x2000)) /\
  exists m',
    operator_assign 0x10 0x10 m = Some (0x10, m') /\
    allocation_info_ m' !! 0x10 = Some null_area /\
    fillers m' = [].
Proof.
  intros m. split; [split; reflexivity |].
  pose proof (self_move_drops_area m 0x10 0x7000 (mkArea 0x1000 0x1800 0x2000)
                eq_refl eq_refl) as (Hmove & _ & _).
  eexists. split; [exact Hmove |]. split; reflexivity.
Defined.

(** X11. [CloseAndMakeIterable] touches nothing but the area of the buffer
    it is called on: heap references and the areas of all other buffers
    stay as they were, and the filler log grows by at most one entry. *)
Theorem CloseAndMakeIterable_frame (m m' : Memory) (this : Z) (a : LinearAllocationArea) :
  CloseAndMakeIterable this m = Some (a, m') ->
  heap_ m' = heap_ m /\
  (forall c, c <> this -> allocation_info_ m' !! c = allocation_info_ m !! c) /\
  exists added, fillers m' = fillers m ++ added /\ (length added <= 1)%nat.
Proof.
  intros Hclose.
  destruct (allocation_info_ m !! this) as [info |] eqn:Hinfo.
  2:{ unfold_LAB. rewrite Hinfo in Hclose. discriminate Hclose. }
  destruct (is_null info) eqn:Hnull.
  - rewrite (CloseAndMakeIterable_invalid m this info Hinfo Hnull) in Hclose.
    inversion Hclose; subst.
    split; [reflexivity |]. split; [reflexivity |].
    exists []. rewrite app_nil_r. split; [reflexivity | cbn; lia].
  - destruct (heap_ m !! this) as [heap |] eqn:Hheap.
    2:{ unfold_LAB. rewrite Hinfo, Hnull in Hclose. cbn in Hclose.
        rewrite Hinfo, Hnull in Hclose. cbn in Hclose.
        rewrite Hheap in Hclose. discriminate Hclose. }
    rewrite (CloseAndMakeIterable_valid m this heap info Hheap Hinfo Hnull) in Hclose.
    inversion Hclose; subst. cbn.
    split; [reflexivity |].
    split; [intros c Hc; apply lookup_insert_ne; congruence |].
    eexists. split; [reflexivity | cbn; lia].
Qed.

Lemma CloseAndMakeIterable_frame_witness :
  let m := example_memory 0x1800 0x2000 in
  exists a m',
    CloseAndMakeIterable 0x10 m = Some (a, m') /\
    heap_ m' = heap_ m /\
    allocation_info_ m' !! 0x20 = allocation_info_ m !! 0x20.
Proof.
  intros m.
  destruct (CloseAndMakeIterable 0x10 m) as [[a m'] |] eqn:Hclose; [| discriminate Hclose].
  exists a, m'.
  destruct (CloseAndMakeIterable_frame m m' 0x10 a Hclose) as (Hheap & Hother & _).
  split; [reflexivity |]. split; [exact Hheap |].
  apply Hother. lia.
Defined.

(** X12. A move touches only its two buffers and writes no filler: the
    fields of every other buffer stay as they were, and the moved-from
    buffer keeps its heap reference. *)
Theorem operator_assign_frame (m m' : Memory) (this other r : Z) :
  operator_assign this other m = Some (r, m') ->
  r = this /\
  fillers m' = fillers m /\
  heap_ m' !! other = heap_ m !! other /\
  (forall c, c <> this -> heap_ m' !! c = heap_ m !! c) /\
  (forall c, c <> this -> c <> other ->
             allocation_info_ m' !! c = allocation_info_ m !! c).
Proof.
  unfold_LAB. intros Hmove.
  destruct (heap_ m !! other) as [h |] eqn:Hheap; [| discriminate Hmove].
  cbn in Hmove.
  destruct (allocation_info_ m !! other) as [a |] eqn:Hinfo; [| discriminate Hmove].
  cbn in Hmove.
  destruct (<[this := a]> (allocation_info_ m) !! other) as [a' |]; [| discriminate Hmove].
  inversion Hmove; subst r m'. cbn.
  split; [reflexivity |]. split; [reflexivity |].
  split; [| split].
  - destruct (decide (this = other)) as [-> | Hne].
    + rewrite lookup_insert_eq. reflexivity.
    + rewrite lookup_insert_ne by exact Hne. exact Hheap.
  - intros c Hc. apply lookup_insert_ne. congruence.
  - intros c Hthis Hother. rewrite !lookup_insert_ne by congruence. reflexivity.
Qed.

Lemma operator_assign_frame_witness :
  let m := example_memory 0x1800 0x2000 in
  exists m',
    operator_assign 0x20 0x10 m = Some (0x20, m') /\
    fillers m' = fillers m /\
    heap_ m' !! 0x10 = Some 0x7000.
Proof.
  intros m.
  destruct (operator_assign 0x20 0x10 m) as [[r m'] |] eqn:Hmove; [| discriminate Hmove].
  destruct (operator_assign_frame m m' 0x20 0x10 r Hmove) as (-> & Hfill & Hheap & _).
  exists m'. split; [reflexivity |]. split; [exact Hfill |].
  rewrite Hheap. reflexivity.
Defined.

(** One [MakeIterable] on a valid buffer. *)
Lemma MakeIterable_valid m this heap info :
  heap_ m !! this = Some heap ->
  allocation_info_ m !! this = Some info ->
  is_null info = false ->
  MakeIterable this m
  = Some (tt, mkMemory (heap_ m) (allocation_info_ m)
                (fillers m ++
                 [(heap, top_ info, to_int (to_size_t (limit_ info - top_ info)))])).
Proof.
  intros Hheap Hinfo Hvalid. unfold_LAB.
  rewrite Hinfo, Hvalid. cbn. rewrite Hheap, Hinfo. reflexivity.
Qed.

(** X13. [MakeIterable] does not retire the buffer: the buffer keeps its
    area and stays valid, and every further call writes the same filler
    again. *)
Theorem MakeIterable_keeps_buffer (m : Memory) (this heap : Z) (info : LinearAllocationArea) :
  heap_ m !! this = Some heap ->
  allocation_info_ m !! this = Some info ->
  is_null info = false ->
  let filler := (heap, top_ info, to_int (to_size_t (limit_ info - top_ info))) in
  let m2 := mkMemory (heap_ m) (allocation_info_ m) (fillers m ++ [filler; filler]) in
  (MakeIterable this >> MakeIterable this) m = Some (tt, m2) /\
  IsValid this m2 = Some (true, m2).
Proof.
  intros Hheap Hinfo Hvalid filler m2.
  split.
  - unfold bind.
    rewrite (MakeIterable_valid m this heap info Hheap Hinfo Hvalid).
    cbv beta iota.
    set (m1 := mkMemory _ _ _).
    rewrite (MakeIterable_valid m1 this heap info Hheap Hinfo Hvalid).
    subst m1. cbn [heap_ allocation_info_ fillers]. unfold m2, filler.
    rewrite <- app_assoc. reflexivity.
  - rewrite (IsValid_lookup m2 this info Hinfo), Hvalid. reflexivity.
Qed.

Lemma MakeIterable_keeps_buffer_witness :
  let m := example_memory 0x1800 0x2000 in
  (heap_ m !! 0x10 = Some 0x7000 /\
   allocation_info_ m !! 0x10 = Some (mkArea 0x1000 0x1800 0x2000) /\
   is_null (mkArea 0x1000 0x1800 0x2000) = false) /\
  (MakeIterable 0x10 >> MakeIterable 0x10) m
  = Some (tt, mkMemory (heap_ m) (allocation_info_ m)
                [(0x7000, 0x1800, 0x800); (0x7000, 0x1800, 0x800)]).
Proof.
  intros m. split; [repeat split |].
  exact (proj1 (MakeIterable_keeps_buffer m 0x10 0x7000 (mkArea 0x1000 0x1800 0x2000)
                  eq_refl eq_refl eq_refl)).
Defined.

(** ** SpaceIterator *)

Import SpaceIterator.

Section SpaceIteratorFurtherProperties.
Context `{Build} {Space : Type}.
Implicit Types (it : SpaceIterator Space) (heap : gmap Z Space).

(** [HasNext] answers false exactly when every slot from the cursor to the
    last mutable space is null. *)
Lemma HasNext_false_iff it :
  (HasNext it).1 = false <->
  forall i, current_space_ it <= i <= LAST_MUTABLE_SPACE -> heap_ it !! i = None.
Proof.
  destruct (HasNext it) as [b it'] eqn:Hrun.
  apply HasNext_spec in Hrun as (Hheap & Hcur & Hnull & Htrue & Hfalse & _).
  cbn [fst]. split.
  - intros ->. intros i Hi. apply Hnull. rewrite (Hfalse eq_refl). lia.
  - intros Hall. destruct b; [| reflexivity].
    destruct (Htrue eq_refl) as [Hle [s Hs]].
    rewrite Hall in Hs by lia. discriminate Hs.
Qed.

(** Calls only move the cursor forward and never change the heap the
    iterator reads. *)
Lemma advances_invariant it it' :
  advances it it' ->
  heap_ it' = heap_ it /\ current_space_ it <= current_space_ it'.
Proof.
  induction 1 as [it | it it' Hadv [IHheap IHcur] | it it' space it'' Hadv [IHheap IHcur] Hnext].
  - split; [reflexivity | lia].
  - destruct (HasNext it') as [b it2] eqn:Hrun.
    apply HasNext_spec in Hrun as (Hheap & Hcur & _). cbn.
    split; [congruence | lia].
  - apply Next_returns in Hnext as (Hheap & Hcur & _).
    split; [congruence | lia].
Qed.

(** Two predicates that agree on the elements of a list keep the same
    elements. *)
Lemma filter_agree {A} (P Q : A -> Prop)
    `{!forall x, Decision (P x)} `{!forall x, Decision (Q x)} (l : list A) :
  (forall x, x ∈ l -> (P x <-> Q x)) -> filter P l = filter Q l.
Proof.
  induction l as [| x l IH]; intros Hagree; [reflexivity |].
  rewrite !filter_cons.
  rewrite IH by (intros y Hy; apply Hagree; right; exact Hy).
  destruct (decide (P x)) as [HP | HP], (decide (Q x)) as [HQ | HQ]; try reflexivity.
  - exfalso. apply HQ. apply (Hagree x); [left | exact HP].
  - exfalso. apply HP. apply (Hagree x); [left | exact HQ].
Qed.

(** X14. After a [HasNext] that returned true, [Next] cannot fail, in a
    debug or a release build: it returns the non-null space of the slot
    the cursor was left on, which is within the mutable range, and moves
    the cursor one slot past it. *)
Theorem Next_after_true_HasNext it it1 :
  HasNext it = (true, it1) ->
  exists s,
    heap_ it !! current_space_ it1 = Some s /\
    current_space_ it <= current_space_ it1 <= LAST_MUTABLE_SPACE /\
    Next it1
    = Some (Some s, {| heap_ := heap_ it; current_space_ := current_space_ it1 + 1 |}).
Proof.
  intros Hrun.
  apply HasNext_spec in Hrun as (Hheap & Hcur & _ & Htrue & _ & _).
  destruct (Htrue eq_refl) as [Hle [s Hs]].
  exists s. split; [exact Hs |]. split; [lia |].
  rewrite <- Hheap. apply Next_after_HasNext; [exact Hle | rewrite Hheap; exact Hs].
Qed.

(** X15. [Next] fails only in a debug build, and there exactly when the
    cursor is past the last mutable space or the slot under it is null;
    whenever it returns, it returns the content of the slot under the
    cursor (null included, in a release build) and advances by one. *)
Theorem Next_aborts_iff it :
  (Next it = None <->
   DEBUG = true /\
   (LAST_MUTABLE_SPACE < current_space_ it \/ heap_ it !! current_space_ it = None)) /\
  (forall space it', Next it = Some (space, it') ->
     space = heap_ it !! current_space_ it /\
     it' = {| heap_ := heap_ it; current_space_ := current_space_ it + 1 |}).
Proof.
  split.
  - unfold Next, bind, gets, modify, ret, DCHECK. cbn.
    destruct DEBUG; cbn.
    + destruct (Z.leb_spec (current_space_ it) LAST_MUTABLE_SPACE) as [Hle | Hgt]; cbn.
      * destruct (heap_ it !! current_space_ it) as [s |] eqn:Hslot; cbn.
        -- split; [discriminate |]. intros [_ [Hbad | Hbad]]; [lia | discriminate].
        -- split; [intros _; split; [reflexivity | right; reflexivity] | reflexivity].
      * split; [intros _; split; [reflexivity | left; lia] | reflexivity].
    + split; [discriminate | intros [Hbad _]; discriminate].
  - intros space it' Hnext.
    pose proof (Next_returns it space it' Hnext) as (Hheap & Hcur & Hspace).
    split; [exact Hspace |].
    destruct it' as [h c]. cbn in *. congruence.
Qed.

(** X16. The pass is forward-only: once [HasNext] has returned false, it
    returns false after any further [HasNext] and [Next] calls. *)
Theorem HasNext_false_forever it it' :
  (HasNext it).1 = false ->
  advances it it' ->
  (HasNext it').1 = false.
Proof.
  intros Hdone Hadv.
  apply advances_invariant in Hadv as [Hheap Hcur].
  apply HasNext_false_iff. intros i Hi.
  rewrite Hheap. apply (proj1 (HasNext_false_iff it) Hdone). lia.
Qed.

(** In a debug build a [Next] that returns started within the range. *)
Lemma Next_debug_within_range it space it' :
  DEBUG = true ->
  Next it = Some (space, it') ->
  current_space_ it <= LAST_MUTABLE_SPACE.
Proof.
  unfold Next, bind, gets, modify, ret, DCHECK. cbn. intros -> Hnext. cbn in Hnext.
  destruct (Z.leb_spec (current_space_ it) LAST_MUTABLE_SPACE) as [Hle | Hgt];
    [exact Hle | discriminate Hnext].
Qed.

(** X17. In a debug build the cursor never leaves
    [[FIRST_MUTABLE_SPACE, LAST_MUTABLE_SPACE + 1]]: [Next] refuses to step
    from a cursor past the last mutable space. *)
Theorem debug_cursor_in_range heap it :
  DEBUG = true ->
  FIRST_MUTABLE_SPACE <= LAST_MUTABLE_SPACE + 1 ->
  reachable heap it ->
  FIRST_MUTABLE_SPACE <= current_space_ it <= LAST_MUTABLE_SPACE + 1.
Proof.
  intros Hdebug Hrange.
  induction 1 as [| it Hreach IH | it space it' Hreach IH Hnext].
  - cbn. lia.
  - destruct (HasNext it) as [b it'] eqn:Hrun.
    apply HasNext_spec in Hrun as (_ & Hcur & _ & Htrue & Hfalse & _). cbn.
    destruct b; [destruct (Htrue eq_refl); lia | rewrite (Hfalse eq_refl); lia].
  - pose proof (Next_returns it space it' Hnext) as (_ & Hcur & _).
    pose proof (Next_debug_within_range it space it' Hdebug Hnext) as Hle.
    lia.
Qed.

(** X18. Iteration resumes where the iterator stands: from any state the
    iterator goes through, the protocol yields exactly the non-null spaces
    of the mutable range whose ids are at or after the cursor, in
    ascending id order; spaces already passed are not yielded again. *)
Theorem iterate_resumes_at_cursor heap it fuel :
  reachable heap it ->
  (Z.to_nat (LAST_MUTABLE_SPACE + 1 - current_space_ it) < fuel)%nat ->
  exists it',
    iterate fuel it
    = Some ((fun i => heap !! i) <$>
              filter (fun i => current_space_ it <= i /\ is_Some (heap !! i))
                (seqZ FIRST_MUTABLE_SPACE (LAST_MUTABLE_SPACE + 1 - FIRST_MUTABLE_SPACE)),
            it') /\
    HasNext it' = (false, it').
Proof.
  intros Hreach Hfuel.
  apply reachable_invariant in Hreach as [Hheap Hfirst].
  destruct (iterate_spec fuel it Hfuel) as (it' & Hiter & _ & Hend).
  exists it'. split; [| exact Hend].
  rewrite Hiter, Hheap. do 3 f_equal.
  rewrite (filter_seqZ_skip (fun i => current_space_ it <= i /\ is_Some (heap !! i))
             FIRST_MUTABLE_SPACE (current_space_ it)) by (try exact Hfirst; intros; lia).
  replace (LAST_MUTABLE_SPACE + 1 - FIRST_MUTABLE_SPACE
           - (current_space_ it - FIRST_MUTABLE_SPACE))
    with (LAST_MUTABLE_SPACE + 1 - current_space_ it) by lia.
  apply filter_agree. intros i Hi. apply elem_of_seqZ in Hi. split; [intros ? | tauto].
  split; [lia | assumption].
Qed.

End SpaceIteratorFurtherProperties.

Lemma Next_after_true_HasNext_witness :
  let B := example_build true in
  let it := new example_heap in
  HasNext it = (true, {| heap_ := example_heap; current_space_ := 2 |}) /\
  Next {| heap_ := example_heap; current_space_ := 2 |}
  = Some (Some 2, {| heap_ := example_heap; current_space_ := 3 |}).
Proof.
  intros B it.
  assert (Hrun : HasNext it = (true, {| heap_ := example_heap; current_space_ := 2 |}))
    by reflexivity.
  split; [exact Hrun |].
  destruct (Next_after_true_HasNext it _ Hrun) as (s & Hs & _ & Hnext).
  rewrite Hnext. cbn in Hs.
  assert (Hs2 : s = 2) by (vm_compute in Hs; congruence).
  rewrite Hs2. reflexivity.
Defined.

Lemma Next_aborts_iff_witness :
  let B := example_build true in
  let it := {| heap_ := example_heap; current_space_ := 8 |} in
  Next it = None.
Proof.
  intros B it.
  apply (proj1 (Next_aborts_iff it)).
  split; [reflexivity | left; cbn; lia].
Defined.

Lemma HasNext_false_forever_witness :
  let B := example_build false in
  let it := {| heap_ := example_heap; current_space_ := 8 |} in
  let it' := {| heap_ := example_heap; current_space_ := 9 |} in
  ((HasNext it).1 = false /\ advances it it') /\
  (HasNext it').1 = false.
Proof.
  intros B it it'.
  assert (Hdone : (HasNext it).1 = false) by reflexivity.
  assert (Hadv : advances it it').
  { apply (advances_Next it it None it' (advances_refl it)). reflexivity. }
  split; [split; [exact Hdone | exact Hadv] |].
  exact (HasNext_false_forever it it' Hdone Hadv).
Defined.

Lemma debug_cursor_in_range_witness :
  let B := example_build true in
  let it := (HasNext (new example_heap)).2 in
  (DEBUG = true /\ FIRST_MUTABLE_SPACE <= LAST_MUTABLE_SPACE + 1 /\
   reachable example_heap it) /\
  FIRST_MUTABLE_SPACE <= current_space_ it <= LAST_MUTABLE_SPACE + 1.
Proof.
  intros B it.
  assert (Hrange : FIRST_MUTABLE_SPACE <= LAST_MUTABLE_SPACE + 1) by (cbn; lia).
  assert (Hreach : reachable example_heap it)
    by (apply reachable_HasNext, reachable_new).
  split; [split; [reflexivity | split; [exact Hrange | exact Hreach]] |].
  exact (debug_cursor_in_range example_heap it eq_refl Hrange Hreach).
Defined.

Lemma iterate_resumes_at_cursor_witness :
  let B := example_build true in
  let it := {| heap_ := example_heap; current_space_ := 3 |} in
  (reachable example_heap it /\
   (Z.to_nat (LAST_MUTABLE_SPACE + 1 - current_space_ it) < 9)%nat) /\
  exists it', iterate 9 it = Some ([Some 5; Some 7], it') /\ HasNext it' = (false, it').
Proof.
  intros B it.
  assert (Hreach : reachable example_heap it).
  { apply (reachable_Next example_heap (HasNext (new example_heap)).2 (Some 2) it);
      [apply reachable_HasNext, reachable_new | reflexivity]. }
  assert (Hfuel : (Z.to_nat (LAST_MUTABLE_SPACE + 1 - current_space_ it) < 9)%nat)
    by (cbn; lia).
  split; [split; [exact Hreach | exact Hfuel] |].
  destruct (iterate_resumes_at_cursor example_heap it 9 Hreach Hfuel)
    as (it' & Hiter & Hend).
  exists it'. split; [| exact Hend].
  rewrite Hiter. reflexivity.
Defined.

(** ** Further compositions *)

Import SpaceWithLinearArea.

(** X19. A request that fills the region gets the whole region: for
    [min_size = end - start] every returned limit is [end], whatever the
    GC, inline-allocation, observer and stress-flag states are. *)
Theorem ComputeLimit_exact_fit `{Build} s start end_ r s' :
  is_size_t start -> is_size_t end_ ->
  start <= end_ ->
  ComputeLimit start end_ (end_ - start) s = Some (r, s') ->
  r = end_.
Proof.
  unfold is_size_t. intros Hs He Hle Hrun.
  destruct (ComputeLimit_value_bounds s start end_ (end_ - start) r s') as [Hr _];
    try assumption; unfold is_size_t; lia.
Qed.

Lemma ComputeLimit_exact_fit_witness :
  let B := example_build true in
  let s := example_space false true true 40 in
  (is_size_t 0x1000 /\ is_size_t 0x2000 /\ 0x1000 <= 0x2000 /\
   @ComputeLimit B 0x1000 0x2000 (0x2000 - 0x1000) s = Some (0x2000, s)) /\
  0x2000 = 0x2000.
Proof.
  intros B s.
  assert (Hsz : is_size_t 0x1000 /\ is_size_t 0x2000) by (unfold is_size_t; lia).
  assert (Hrun : @ComputeLimit B 0x1000 0x2000 (0x2000 - 0x1000) s = Some (0x2000, s))
    by reflexivity.
  split; [split; [apply Hsz | split; [apply Hsz | split; [lia | exact Hrun]]] |].
  apply (@ComputeLimit_exact_fit B s 0x1000 0x2000 0x2000 s);
    [apply Hsz | apply Hsz | lia | exact Hrun].
Defined.

Import LocalAllocationBuffer.

(** X20. Ownership follows a chain of moves: after moving [A] into [B] and
    [B] into [C], [C] holds the heap reference and the area [A] started
    with, [A] and [B] are invalid, and no filler has been written. *)
Theorem move_chain (m : Memory) (A B C heap : Z) (info : LinearAllocationArea) :
  A <> B -> B <> C -> A <> C ->
  heap_ m !! A = Some heap ->
  allocation_info_ m !! A = Some info ->
  exists m',
    (operator_assign B A >> operator_assign C B) m = Some (C, m') /\
    heap_ m' !! C = Some heap /\
    allocation_info_ m' !! C = Some info /\
    allocation_info_ m' !! A = Some null_area /\
    allocation_info_ m' !! B = Some null_area /\
    fillers m' = fillers m.
Proof.
  intros HAB HBC HAC Hheap Hinfo.
  unfold bind.
  rewrite (operator_assign_distinct m B A heap info) by congruence.
  set (m1 := mkMemory _ _ _).
  assert (HheapB : heap_ m1 !! B = Some heap) by apply lookup_insert_eq.
  assert (HinfoB : allocation_info_ m1 !! B = Some info).
  { cbn. rewrite lookup_insert_ne by exact HAB. apply lookup_insert_eq. }
  rewrite (operator_assign_distinct m1 C B heap info) by congruence.
  eexists. split; [reflexivity |]. cbn.
  split; [apply lookup_insert_eq |].
  split; [rewrite lookup_insert_ne by exact HBC; apply lookup_insert_eq |].
  split; [| split; [apply lookup_insert_eq | reflexivity]].
  rewrite !lookup_insert_ne by congruence. apply lookup_insert_eq.
Qed.

Lemma move_chain_witness :
  let m := example_memory 0x1800 0x2000 in
  (0x10 <> 0x20 /\ 0x20 <> 0x30 /\ 0x10 <> 0x30 /\
   heap_ m !! 0x10 = Some 0x7000 /\
   allocation_info_ m !! 0x10 = Some (mkArea 0x1000 0x1800 0x2000)) /\
  exists m',
    (operator_assign 0x20 0x10 >> operator_assign 0x30 0x20) m = Some (0x30, m') /\
    allocation_info_ m' !! 0x30 = Some (mkArea 0x1000 0x1800 0x2000) /\
    fillers m' = [].
Proof.
  intros m.
  assert (H12 : 0x10 <> 0x20) by lia.
  assert (H23 : 0x20 <> 0x30) by lia.
  assert (H13 : 0x10 <> 0x30) by lia.
  split; [split; [exact H12 | split; [exact H23 | split; [exact H13 | split; reflexivity]]] |].
  destruct (move_chain m 0x10 0x20 0x30 0x7000 (mkArea 0x1000 0x1800 0x2000)
              H12 H23 H13 eq_refl eq_refl) as (m' & Hrun & _ & HC & _ & _ & Hfill).
  exists m'. split; [exact Hrun |]. split; [exact HC | exact Hfill].
Defined.
